(** * Monte Carlo option pricing pipeline (analysis.py): model and properties

    The pipeline of [analysis.py] is embedded function by function.

    Numeric convention.  numpy's float64 arithmetic is modelled by exact
    real arithmetic on [R]; the one non-finite value that the program can
    produce from integer-shaped degenerate input, the [nan] of a reduction
    over an empty array, is kept as [NaN] in the type [npfloat].  Rounding,
    overflow and underflow of float64 are outside the model: [exp] on [R]
    never overflows to inf nor underflows to 0.0, [sqrt] of a negative
    real is 0 where [np.sqrt] gives nan, and a sum of reals does not
    depend on the order of its terms.  The properties of the simulator are
    therefore stated on the range [float_safe], where the float64
    computation stays finite and away from underflow, and those of the
    benchmark on [bounded_draws]; the values they give are those of the
    exact computation.  Where a statement of the specification fails
    through rounding alone, the failure is exhibited on binary64 numbers
    (module [f64]).

    Effects.  The global numpy random generator and the wall clock are the
    two sources of input of the program.  They are threaded explicitly as a
    [World]: an infinite stream of standard normal draws (consumed in row
    major order by every array that is generated) and an infinite stream of
    clock readings.  Python exceptions are the left injection of a sum.
    Console output, the creation of the output directory and the two CSV
    files do not feed back into the computation and are not modelled:
    [main] returns the two rows it would write, and a failure of the file
    system is outside the model. *)

From Stdlib Require Import Reals Lra Lia ZArith List Psatz Sorted Permutation.
From Stdlib Require Floats.PrimFloat.
Import ListNotations.
Local Open Scope R_scope.

(** ** Python exceptions, world state, and the monad threading both *)

Inductive exn : Type :=
| ZeroDivisionError   (* float division by zero, Python level *)
| ValueError          (* numpy: negative dimensions, empty reduction *)
| IndexError          (* numpy: index out of bounds *)
| InvalidParameter.   (* the error kind named by the specification;
                         no statement of analysis.py raises it *)

Record World : Type := mkWorld {
  normals : nat -> R;   (* the draws still to come from np.random *)
  clock : nat -> R      (* the readings still to come from time.time() *)
}.

Definition M (A : Type) : Type := World -> exn + (A * World).

Definition ret {A} (a : A) : M A := fun w => inr (a, w).

Definition raise {A} (e : exn) : M A := fun _ => inl e.

Definition bind {A B} (c : M A) (k : A -> M B) : M B :=
  fun w => match c w with
           | inl e => inl e
           | inr (a, w') => k a w'
           end.

Notation "x <- c ;; k" := (bind c (fun x => k))
  (at level 61, c at next level, right associativity).

(** [time.time()] *)
Definition time_time : M R :=
  fun w => inr (clock w 0%nat, mkWorld (normals w) (fun k => clock w (S k))).

(** ** numpy scalars and arrays *)

(** A float64 result: a real number, or nan. *)
Inductive npfloat : Type :=
| Fin (x : R)
| NaN.

Definition flift1 (f : R -> R) (a : npfloat) : npfloat :=
  match a with Fin x => Fin (f x) | NaN => NaN end.

Definition flift2 (f : R -> R -> R) (a b : npfloat) : npfloat :=
  match a, b with Fin x, Fin y => Fin (f x y) | _, _ => NaN end.

Definition fmul := flift2 Rmult.
Definition fdiv := flift2 Rdiv.
Definition fsub := flift2 Rminus.
Definition fabs := flift1 Rabs.


Module np.

(** One dimensional arrays are lists, two dimensional arrays are lists of
    rows (axis 0 is the outer list). *)
Definition array1 := list R.
Definition array2 := list (list R).

(** [np.random.standard_normal((n, m))], also [np.random.randn(n, m)]:
    an [n] by [m] table filled in row major order from the generator. *)
Definition table (g : nat -> R) (n m : nat) : array2 :=
  map (fun i => map (fun j => g (i * m + j)%nat) (seq 0 m)) (seq 0 n).

Definition standard_normal (shape : Z * Z) : M array2 :=
  fun w =>
    let '(n, m) := shape in
    if ((n <? 0) || (m <? 0))%Z%bool then inl ValueError
    else
      let n' := Z.to_nat n in
      let m' := Z.to_nat m in
      inr (table (normals w) n' m',
           mkWorld (fun k => normals w (n' * m' + k)%nat) (clock w)).

Definition randn (n m : Z) : M array2 := standard_normal (n, m).

(** scalar (op) array broadcasting *)
Definition smul2 (c : R) (a : array2) : array2 := map (map (Rmult c)) a.
Definition sadd2 (c : R) (a : array2) : array2 := map (map (Rplus c)) a.
Definition exp2 (a : array2) : array2 := map (map exp) a.

(** elementwise sum of two rows *)
Fixpoint vadd (u v : array1) : array1 :=
  match u, v with
  | x :: u', y :: v' => (x + y) :: vadd u' v'
  | _, _ => []
  end.

(** [np.cumsum(a, axis=0)]: running sums down the rows. *)
Fixpoint cumsum_from (acc : array1) (a : array2) : array2 :=
  match a with
  | [] => []
  | row :: rest => let acc' := vadd acc row in acc' :: cumsum_from acc' rest
  end.

Definition cumsum0 (a : array2) : array2 :=
  match a with
  | [] => []
  | row :: rest => row :: cumsum_from row rest
  end.

(** [a[-1, :]] *)
Definition last_row (a : array2) : M array1 :=
  match a with
  | [] => raise IndexError
  | row :: rest => ret (last rest row)
  end.

(** [np.maximum(a - k, 0)] is composed of the next two. *)
Definition ssub1 (a : array1) (k : R) : array1 := map (fun x => x - k) a.
Definition maximum (a : array1) (c : R) : array1 := map (fun x => Rmax x c) a.

Definition sum (a : array1) : R := fold_right Rplus 0 a.

(** [np.mean]: nan on an empty array (a warning, not an exception). *)
Definition mean (a : array1) : npfloat :=
  match a with
  | [] => NaN
  | _ => Fin (sum a / INR (length a))
  end.

(** [np.std] with its default [ddof=0]: the square root of the mean of
    the squared deviations from the mean. *)
Definition std (a : array1) : npfloat :=
  match mean a with
  | NaN => NaN
  | Fin m => flift1 sqrt (mean (map (fun x => (x - m) * (x - m)) a))
  end.

(** [np.sqrt] of a Python int *)
Definition sqrtZ (n : Z) : R := sqrt (IZR n).

End np.

(** Python [x / n] with a float [x] and an int [n]. *)
Definition py_div (x : R) (n : Z) : M R :=
  if (n =? 0)%Z then raise ZeroDivisionError else ret (x / IZR n).

(** ** The path simulator *)

Record SimulationResult : Type := mkSim {
  option_price : npfloat;
  std_error : npfloat;
  confidence_interval_95 : npfloat;
  elapsed_time : R;
  simulations : Z;
  terminal_prices : np.array1
}.

Definition SIMULATIONS : Z := 10000000.
Definition TIME_STEPS : Z := 252.

Definition monte_carlo_option_pricing
    (S0 K T r sigma : R) (n_sims n_steps : Z) : M SimulationResult :=
  start_time <- time_time ;;
  dt <- py_div T n_steps ;;
  Z <- np.standard_normal (n_steps, n_sims) ;;
  let drift := (r - 0.5 * sigma ^ 2) * dt in
  let diffusion := np.smul2 (sigma * sqrt dt) Z in
  let price_paths :=
    np.smul2 S0 (np.exp2 (np.cumsum0 (np.sadd2 drift diffusion))) in
  ST <- np.last_row price_paths ;;
  let payoffs := np.maximum (np.ssub1 ST K) 0 in
  let option_price := fmul (Fin (exp (- r * T))) (np.mean payoffs) in
  let std_error := fdiv (np.std payoffs) (Fin (np.sqrtZ n_sims)) in
  let confidence_interval := fmul (Fin 1.96) std_error in
  end_time <- time_time ;;
  let elapsed_time := end_time - start_time in
  ret (mkSim option_price std_error confidence_interval elapsed_time
             n_sims ST).

(** ** Remaining numpy reductions: order statistics, linear algebra *)

Module npstat.

Import np.

(** [np.sort] (insertion sort stands for numpy's sort: the result is the
    sorted permutation of the input, which is all that is used). *)
Fixpoint insert (x : R) (l : array1) : array1 :=
  match l with
  | [] => [x]
  | y :: l' => if Rle_dec x y then x :: l else y :: insert x l'
  end.

Definition sort (a : array1) : array1 := fold_right insert [] a.

(** [np.min], [np.max]: an empty array has no minimum. *)
Definition min (a : array1) : M R :=
  match a with
  | [] => raise ValueError
  | x :: a' => ret (fold_right Rmin x a')
  end.

Definition max (a : array1) : M R :=
  match a with
  | [] => raise ValueError
  | x :: a' => ret (fold_right Rmax x a')
  end.

(** [np.median]: the middle element of the sorted array, or the mean of
    the two middle elements when the length is even. *)
Definition median (a : array1) : npfloat :=
  match a with
  | [] => NaN
  | _ =>
      let s := sort a in
      let n := length a in
      if Nat.even n
      then Fin ((nth (n / 2 - 1) s 0 + nth (n / 2) s 0) / 2)
      else Fin (nth (n / 2) s 0)
  end.

(** linear interpolation between two neighbours *)
Definition lerp (a b t : R) : R := a + (b - a) * t.

(** [np.percentile(a, q)], default method (linear): the virtual index
    [(n-1) * q/100] in the sorted array, interpolated between the two
    closest ranks.  On an empty array numpy 1.x returns nan, as here,
    and numpy 2.x raises an index error; [main] never gets there, since
    [np.min] has raised on the empty array before. *)
Definition percentile (a : array1) (q : R) : M npfloat :=
  if Rle_dec 0 q then
    if Rle_dec q 100 then
      match a with
      | [] => ret NaN
      | _ =>
          let s := sort a in
          let n := length a in
          let h := INR (n - 1) * (q / 100) in
          let lo := Z.to_nat (Zfloor h) in
          let hi := Nat.min (lo + 1) (n - 1) in
          ret (Fin (lerp (nth lo s 0) (nth hi s 0) (h - INR lo)))
      end
    else raise ValueError
  else raise ValueError.

(** complex numbers as pairs, [np.abs] on them is the modulus *)
Definition complex : Type := (R * R)%type.
Definition Cmod (z : complex) : R := sqrt (fst z * fst z + snd z * snd z).
Definition abs (a : list complex) : array1 := map Cmod a.

(** [np.dot(a, b)] on two dimensional arrays *)
Fixpoint inner (u v : array1) : R :=
  match u, v with
  | x :: u', y :: v' => x * y + inner u' v'
  | _, _ => 0
  end.

Definition column (j : nat) (b : array2) : array1 :=
  map (fun row => nth j row 0) b.

Definition dot (a b : array2) : array2 :=
  map (fun row =>
         map (fun j => inner row (column j b)) (seq 0 (length (hd [] b)))) a.

(** [a[:k, :k]] *)
Definition leading (k : nat) (a : array2) : array2 :=
  map (firstn k) (firstn k a).

End npstat.

(** ** scipy.stats.norm.cdf *)

(** The density of the standard normal distribution. *)
Definition norm_pdf (t : R) : R := exp (- (t * t) / 2) / sqrt (2 * PI).

Lemma norm_pdf_continuity : continuity norm_pdf.
Proof.
  unfold norm_pdf. reg.
Qed.

Lemma norm_pdf_integrable (a b : R) : Riemann_integrable norm_pdf a b.
Proof.
  destruct (Rle_dec a b) as [Hab | Hab].
  - apply continuity_implies_RiemannInt; [exact Hab |].
    intros x _. apply norm_pdf_continuity.
  - apply RiemannInt_P1, continuity_implies_RiemannInt; [lra |].
    intros x _. apply norm_pdf_continuity.
Qed.

(** [scipy.stats.norm.cdf] is library code; it is modelled by the function
    it computes, the standard normal cumulative distribution function.
    Half of the mass lies below 0, so the mass below [x] is [1/2] plus the
    (signed) integral of the density from [0] to [x]. *)
Definition norm_cdf (x : R) : R := 1 / 2 + RiemannInt (norm_pdf_integrable 0 x).

(** ** The benchmark and the aggregator *)

Record BenchmarkResult : Type := mkBench {
  matrix_size : Z;
  bench_elapsed_time : R;
  max_eigenvalue : R
}.

Record SummaryRow : Type := mkSummary {
  timestamp : R;
  monte_carlo_simulations : Z;
  mc_option_price : npfloat;
  mc_std_error : npfloat;
  mc_ci_95 : npfloat;
  mc_elapsed_time_sec : R;
  analytical_bs_price : R;
  pricing_error : npfloat;
  error_percentage : npfloat;
  matrix_computation_size : Z;
  matrix_elapsed_time_sec : R;
  matrix_max_eigenvalue : R;
  total_elapsed_time_sec : R
}.

Record TerminalStatsRow : Type := mkStats {
  stat_mean : npfloat;
  stat_median : npfloat;
  stat_std : npfloat;
  stat_min : R;
  stat_max : R;
  percentile_25 : npfloat;
  percentile_75 : npfloat;
  percentile_95 : npfloat
}.

(** The dictionary of descriptive statistics that [main] builds from the
    terminal prices, in the order in which Python evaluates its entries. *)
Definition terminal_stats (prices : np.array1) : M TerminalStatsRow :=
  let mean := np.mean prices in
  let median := npstat.median prices in
  let std := np.std prices in
  min <- npstat.min prices ;;
  max <- npstat.max prices ;;
  p25 <- npstat.percentile prices 25 ;;
  p75 <- npstat.percentile prices 75 ;;
  p95 <- npstat.percentile prices 95 ;;
  ret (mkStats mean median std min max p25 p75 p95).

(** The closed form price computed in [main], as a function of the five
    market parameters that [main] binds to constants. *)
Definition analytical_price (S0 K T r sigma : R) : R :=
  let d1 := (ln (S0 / K) + (r + 0.5 * sigma ^ 2) * T) / (sigma * sqrt T) in
  let d2 := d1 - sigma * sqrt T in
  S0 * norm_cdf d1 - K * exp (- r * T) * norm_cdf d2.

Section Pipeline.

(** [np.linalg.eigvals]: the LAPACK eigenvalue routine, taken as given. *)
Variable eigvals : np.array2 -> list npstat.complex.

Definition matrix_computation_benchmark : M BenchmarkResult :=
  start_time <- time_time ;;
  let size := 5000%Z in
  A <- np.randn size size ;;
  B <- np.randn size size ;;
  let C := npstat.dot A B in
  let eigenvalues := eigvals (npstat.leading 1000 C) in
  end_time <- time_time ;;
  let elapsed_time := end_time - start_time in
  mx <- npstat.max (npstat.abs eigenvalues) ;;
  ret (mkBench size elapsed_time mx).

Definition main : M (SummaryRow * TerminalStatsRow) :=
  mc_results <-
    monte_carlo_option_pricing 100 105 1 0.05 0.2 SIMULATIONS TIME_STEPS ;;
  matrix_results <- matrix_computation_benchmark ;;
  let analytical_price := analytical_price 100 105 1 0.05 0.2 in
  let pricing_error :=
    fabs (fsub (option_price mc_results) (Fin analytical_price)) in
  let error_percentage :=
    fmul (fdiv pricing_error (Fin analytical_price)) (Fin 100) in
  now <- time_time ;;   (* datetime.now(): a reading of the wall clock;
                           its ISO string is not modelled *)
  let results_summary :=
    mkSummary now
              (simulations mc_results)
              (option_price mc_results)
              (std_error mc_results)
              (confidence_interval_95 mc_results)
              (elapsed_time mc_results)
              analytical_price
              pricing_error
              error_percentage
              (matrix_size matrix_results)
              (bench_elapsed_time matrix_results)
              (max_eigenvalue matrix_results)
              (elapsed_time mc_results + bench_elapsed_time matrix_results) in
  stats <- terminal_stats (terminal_prices mc_results) ;;
  ret (results_summary, stats).

End Pipeline.

(** ** The vocabulary of the specification *)

(** [sum_upto f n] is [f 0 + ... + f (n-1)]. *)
Fixpoint sum_upto (f : nat -> R) (n : nat) : R :=
  match n with
  | O => 0
  | S k => sum_upto f k + f k
  end.

(** [sum_range f s n] is [f s + ... + f (s+n-1)]. *)
Fixpoint sum_range (f : nat -> R) (s n : nat) : R :=
  match n with
  | O => 0
  | S k => f s + sum_range f (S s) k
  end.

(** rows [s .. s+n-1] of the [m] column table whose entry [(i, j)] is
    [f i j] *)
Definition rows (m : nat) (f : nat -> nat -> R) (s n : nat) : np.array2 :=
  map (fun i => map (f i) (seq 0 m)) (seq s n).

(** The table of line 53 of the source, [S0 * exp(cumsum(drift + diffusion))],
    as a function of the table of draws. *)
Definition price_paths (S0 T r sigma : R) (n_steps : Z) (Z : np.array2)
  : np.array2 :=
  let dt := T / IZR n_steps in
  let drift := (r - 0.5 * sigma ^ 2) * dt in
  let diffusion := np.smul2 (sigma * sqrt dt) Z in
  np.smul2 S0 (np.exp2 (np.cumsum0 (np.sadd2 drift diffusion))).

Section SimulatorSpec.

Variables S0 K T r sigma : R.
Variables n_sims n_steps : Z.
Variable w : World.

(** The quantities of the path simulator, in the words of the
    specification. *)
Definition time_increment : R := T / IZR n_steps.

Definition drift_term : R := (r - 0.5 * sigma ^ 2) * time_increment.

(** the draw for time step [i] of path [j] *)
Definition draw (i j : nat) : R := normals w (i * Z.to_nat n_sims + j)%nat.

Definition log_increment (i j : nat) : R :=
  drift_term + sigma * sqrt time_increment * draw i j.

Definition terminal_price (j : nat) : R :=
  S0 * exp (sum_upto (fun i => log_increment i j) (Z.to_nat n_steps)).

Definition terminal_vector : np.array1 :=
  map terminal_price (seq 0 (Z.to_nat n_sims)).

Definition payoff (j : nat) : R := Rmax (terminal_price j - K) 0.

Definition payoff_vector : np.array1 :=
  map payoff (seq 0 (Z.to_nat n_sims)).

(** the world once the simulator has returned: two clock readings and
    [n_steps * n_sims] draws have been consumed *)
Definition world_after : World :=
  mkWorld (fun k => normals w (Z.to_nat n_steps * Z.to_nat n_sims + k)%nat)
          (fun k => clock w (S (S k))).

Definition simulation_result : SimulationResult :=
  let se := fdiv (np.std payoff_vector) (Fin (np.sqrtZ n_sims)) in
  mkSim (fmul (Fin (exp (- r * T))) (np.mean payoff_vector))
        se
        (fmul (Fin 1.96) se)
        (clock w 1 - clock w 0)
        n_sims
        terminal_vector.

End SimulatorSpec.

Section BenchmarkSpec.

Variable eigvals : np.array2 -> list npstat.complex.
Variable size : Z.
Variable w : World.

(** The two matrices of the benchmark: each takes the next
    [size * size] draws of the generator, so that no draw is shared. *)
Definition bench_A : np.array2 :=
  np.table (normals w) (Z.to_nat size) (Z.to_nat size).

Definition bench_B : np.array2 :=
  np.table (fun k => normals w (Z.to_nat size * Z.to_nat size + k)%nat)
           (Z.to_nat size) (Z.to_nat size).

(** the leading 1000 by 1000 block of their product and its eigenvalues *)
Definition bench_block : np.array2 :=
  npstat.leading 1000 (npstat.dot bench_A bench_B).

Definition bench_spectrum : list npstat.complex := eigvals bench_block.

(** the body of the benchmark, with its local constant [size] abstracted *)
Definition benchmark_at : M BenchmarkResult :=
  start_time <- time_time ;;
  A <- np.randn size size ;;
  B <- np.randn size size ;;
  let C := npstat.dot A B in
  let eigenvalues := eigvals (npstat.leading 1000 C) in
  end_time <- time_time ;;
  let elapsed_time := end_time - start_time in
  mx <- npstat.max (npstat.abs eigenvalues) ;;
  ret (mkBench size elapsed_time mx).

End BenchmarkSpec.

(** The value at the real rank [h] of a sorted array [s] of length [n]:
    the interpolation that [np.percentile] performs. *)
Definition rank_value (n : nat) (s : list R) (h : R) : R :=
  let lo := Z.to_nat (Zfloor h) in
  let hi := Nat.min (lo + 1) (n - 1) in
  npstat.lerp (nth lo s 0) (nth hi s 0) (h - INR lo).

Definition percentile_value (a : np.array1) (q : R) : R :=
  rank_value (length a) (npstat.sort a) (INR (length a - 1) * (q / 100)).

(** The body of [main] with the constants it binds abstracted: the five
    market parameters, the two counts and the matrix size. *)
Definition main_at (eigvals : np.array2 -> list npstat.complex)
    (S0 K T r sigma : R) (n_sims n_steps size : Z)
  : M (SummaryRow * TerminalStatsRow) :=
  mc_results <- monte_carlo_option_pricing S0 K T r sigma n_sims n_steps ;;
  matrix_results <- benchmark_at eigvals size ;;
  let analytical_price := analytical_price S0 K T r sigma in
  let pricing_error :=
    fabs (fsub (option_price mc_results) (Fin analytical_price)) in
  let error_percentage :=
    fmul (fdiv pricing_error (Fin analytical_price)) (Fin 100) in
  now <- time_time ;;   (* datetime.now(), a reading of the same clock *)
  let results_summary :=
    mkSummary now
              (simulations mc_results)
              (option_price mc_results)
              (std_error mc_results)
              (confidence_interval_95 mc_results)
              (elapsed_time mc_results)
              analytical_price
              pricing_error
              error_percentage
              (matrix_size matrix_results)
              (bench_elapsed_time matrix_results)
              (max_eigenvalue matrix_results)
              (elapsed_time mc_results + bench_elapsed_time matrix_results) in
  stats <- terminal_stats (terminal_prices mc_results) ;;
  ret (results_summary, stats).

(** The Black-Scholes closed form, in the words of the specification. *)
Definition bs_d1 (S0 K T r sigma : R) : R :=
  (ln (S0 / K) + (r + 0.5 * sigma ^ 2) * T) / (sigma * sqrt T).

Definition bs_d2 (S0 K T r sigma : R) : R :=
  bs_d1 S0 K T r sigma - sigma * sqrt T.

Definition black_scholes_call (S0 K T r sigma : R) : R :=
  S0 * norm_cdf (bs_d1 S0 K T r sigma)
  - K * exp (- r * T) * norm_cdf (bs_d2 S0 K T r sigma).

(** validity of a Simulation Parameters record: every value is strictly
    positive except the rate, the two counts are positive integers *)
Definition valid_parameters (S0 K T r sigma : R) (n_sims n_steps : Z) : Prop :=
  0 < S0 /\ 0 < K /\ 0 < T /\ 0 < sigma /\ (0 < n_sims)%Z /\ (0 < n_steps)%Z.

(** a fixed world for the concrete runs below: every draw is 0, the clock
    reads 0, 1, 2, ... *)
Definition zero_world : World := mkWorld (fun _ => 0) (fun k => INR k).


(** ** Auxiliary functions for the normal distribution *)

(** the signed mass of the density between [0] and [x] *)
Definition gauss (x : R) : R := RiemannInt (norm_pdf_integrable 0 x).

Lemma norm_pdf_continuity_on (a b x : R) :
  a <= x <= b -> continuity_pt norm_pdf x.
Proof. intros _. apply norm_pdf_continuity. Qed.

Lemma unit_interval : -1 <= 1.
Proof. lra. Qed.

(** the primitive of the density on [[-1, 1]] that vanishes at [-1] *)
Definition mass_from_minus_one : R -> R :=
  primitive unit_interval
            (FTC_P1 unit_interval (norm_pdf_continuity_on (-1) 1)).

(** the cubic and quintic Taylor polynomials of the Gaussian integral *)
Definition gauss_cubic (x : R) : R :=
  / sqrt (2 * PI) * (x - x * x * x * / 6).

Definition gauss_quintic (x : R) : R :=
  / sqrt (2 * PI) * (x - x * x * x * / 6 + x * x * x * x * x * / 40).

(** Draws of moderate size, as the generator returns them: the products
    and sums of the benchmark stay far inside the float64 range. *)
Definition bounded_draws (w : World) : Prop :=
  forall k, Rabs (normals w k) <= 100.

(** The range of inputs on which the float64 computation of the simulator
    stays finite and away from underflow, and its rounding errors stay
    small: the market parameters, the two counts and the draws are of
    moderate size, the discount exponent and every cumulative log-return
    lie within [[-100, 100]].  Outside this range float64 [exp] overflows
    to inf or underflows to 0.0, [sigma ** 2] can raise, and the results
    can be inf or nan; the real-number model says nothing there.
    Exhaustion of memory by the table of draws is outside the model. *)
Definition float_safe (S0 K T r sigma : R) (n_sims n_steps : Z) (w : World)
  : Prop :=
  1e-10 <= S0 <= 1e10
  /\ 1e-10 <= K <= 1e10
  /\ 1e-10 <= T <= 1e4
  /\ Rabs r <= 100
  /\ 1e-10 <= sigma <= 100
  /\ (n_sims <= 1000000000000)%Z
  /\ (n_steps <= 1000000000000)%Z
  /\ Rabs (r * T) <= 100
  /\ bounded_draws w
  /\ forall i j,
       (i < Z.to_nat n_steps)%nat -> (j < Z.to_nat n_sims)%nat ->
       Rabs (sum_upto
               (fun k => (r - 0.5 * sigma ^ 2) * (T / IZR n_steps)
                         + sigma * sqrt (T / IZR n_steps)
                           * normals w (k * Z.to_nat n_sims + j)%nat)
               (S i)) <= 100.

(** a second fixed world: the first draw is 0, every later draw is 1 *)
Definition step_world : World :=
  mkWorld (fun k => match k with O => 0 | S _ => 1 end) (fun k => INR k).

(** ** The reductions on binary64 numbers

    [np.mean] and [np.max] on IEEE binary64 numbers, every operation
    rounded to nearest as the hardware does.  [np.mean] divides the sum
    of the entries by their number; on an array of fewer than eight
    entries the sum adds the entries one after the other. *)
Module f64.
Import Floats.PrimFloat.

Definition sum (a : list float) : float := fold_left add a 0%float.

Fixpoint of_nat (n : nat) : float :=
  match n with
  | O => 0%float
  | S k => add (of_nat k) 1%float
  end.

Definition mean (a : list float) : float := div (sum a) (of_nat (length a)).

(** [np.max] of a non-empty array (on the empty array, where [np.max]
    raises, the value here is nan) *)
Definition max (a : list float) : float :=
  match a with
  | [] => nan
  | x :: l => fold_left (fun m y => if ltb m y then y else m) l x
  end.



End f64.

(** * Properties *)

(** ** Monad laws used to run the model symbolically *)

Lemma bind_inr {A B} (c : M A) (k : A -> M B) (w w' : World) (a : A) :
  c w = inr (a, w') -> bind c k w = k a w'.
Proof. unfold bind. intros ->. reflexivity. Qed.

Lemma bind_inl {A B} (c : M A) (k : A -> M B) (w : World) (e : exn) :
  c w = inl e -> bind c k w = inl e.
Proof. unfold bind. intros ->. reflexivity. Qed.

(** ** Sums over an index range *)

Lemma sum_range_snoc (f : nat -> R) (n s : nat) :
  sum_range f s (S n) = sum_range f s n + f (s + n)%nat.
Proof.
  revert s. induction n as [| n IH]; intros s.
  - simpl. rewrite Nat.add_0_r. ring.
  - change (sum_range f s (S (S n))) with (f s + sum_range f (S s) (S n)).
    rewrite IH. simpl. rewrite Nat.add_succ_r. ring.
Qed.

Lemma sum_range_upto (f : nat -> R) (n : nat) :
  sum_range f 0 n = sum_upto f n.
Proof.
  induction n as [| n IH]; [reflexivity |].
  rewrite sum_range_snoc, IH. reflexivity.
Qed.

(** ** Shape of generated tables and of their running sums *)

Section Tables.

Variable m : nat.

#[local] Abbreviation rows := (rows m).

Lemma vadd_map (u v : nat -> R) (l : list nat) :
  np.vadd (map u l) (map v l) = map (fun j => u j + v j) l.
Proof.
  induction l as [| j l IH]; simpl; [reflexivity | now rewrite IH].
Qed.

Lemma last_cons {A} (x d : A) (l : list A) : last (x :: l) d = last l x.
Proof.
  revert x d. induction l as [| y l IH]; intros x d; [reflexivity |].
  change (last (x :: y :: l) d) with (last (y :: l) d).
  now rewrite (IH y d), (IH y x).
Qed.

Lemma last_map {A B} (g : A -> B) (l : list A) (d : A) :
  last (map g l) (g d) = g (last l d).
Proof.
  revert d. induction l as [| x l IH]; intros d; [reflexivity |].
  change (map g (x :: l)) with (g x :: map g l).
  rewrite !last_cons. apply IH.
Qed.

Lemma last_cumsum_from (f : nat -> nat -> R) (n s : nat) (acc : nat -> R) :
  last (np.cumsum_from (map acc (seq 0 m)) (rows f s n)) (map acc (seq 0 m))
  = map (fun j => acc j + sum_range (fun i => f i j) s n) (seq 0 m).
Proof.
  revert s acc. induction n as [| n IH]; intros s acc.
  - simpl. apply map_ext. intros j. ring.
  - unfold rows. simpl seq. simpl map. simpl np.cumsum_from.
    rewrite last_cons, vadd_map.
    fold (rows f (S s) n).
    rewrite (IH (S s) (fun j => acc j + f s j)).
    apply map_ext. intros j. simpl. ring.
Qed.

Lemma last_cumsum0 (f : nat -> nat -> R) (n : nat) (d : np.array1) :
  last (np.cumsum0 (rows f 0 (S n))) d
  = map (fun j => sum_upto (fun i => f i j) (S n)) (seq 0 m).
Proof.
  unfold rows. simpl seq. simpl map. unfold np.cumsum0.
  rewrite last_cons.
  fold (rows f 1 n).
  rewrite (last_cumsum_from f n 1 (f 0%nat)).
  apply map_ext. intros j.
  transitivity (sum_range (fun i => f i j) 0 (S n));
    [reflexivity | apply sum_range_upto].
Qed.

End Tables.

Lemma table_rows (g : nat -> R) (n m : nat) :
  np.table g n m = rows m (fun i j => g (i * m + j)%nat) 0 n.
Proof. reflexivity. Qed.

Lemma sadd2_smul2_rows (c d : R) (m : nat) (f : nat -> nat -> R) (s n : nat) :
  np.sadd2 c (np.smul2 d (rows m f s n))
  = rows m (fun i j => c + d * f i j) s n.
Proof.
  unfold np.sadd2, np.smul2, rows.
  rewrite !map_map. apply map_ext. intros i.
  rewrite !map_map. reflexivity.
Qed.

(** ** Every entry of the price table *)

Lemma nth_map_seq (h : nat -> R) (m j : nat) (d : R) :
  (j < m)%nat -> nth j (map h (seq 0 m)) d = h j.
Proof.
  intros Hj.
  rewrite (nth_indep _ d (h 0%nat)) by now rewrite length_map, length_seq.
  rewrite (map_nth h (seq 0 m) 0%nat j), seq_nth by exact Hj.
  reflexivity.
Qed.

Lemma nth_cumsum_from (m : nat) (f : nat -> nat -> R) (n s i : nat)
    (acc : nat -> R) :
  (i < n)%nat ->
  nth i (np.cumsum_from (map acc (seq 0 m)) (rows m f s n)) []
  = map (fun j => acc j + sum_range (fun k => f k j) s (S i)) (seq 0 m).
Proof.
  revert s i acc. induction n as [| n IH]; intros s i acc Hi; [lia |].
  unfold rows. simpl seq. simpl map. simpl np.cumsum_from.
  rewrite vadd_map. fold (rows m f (S s) n).
  destruct i as [| i].
  - simpl. apply map_ext. intros j. ring.
  - simpl nth. rewrite (IH (S s) i (fun j => acc j + f s j)) by lia.
    apply map_ext. intros j.
    change (sum_range (fun k => f k j) s (S (S i)))
      with (f s j + sum_range (fun k => f k j) (S s) (S i)).
    ring.
Qed.

Lemma nth_cumsum0 (m : nat) (f : nat -> nat -> R) (n i : nat) :
  (i < n)%nat ->
  nth i (np.cumsum0 (rows m f 0 n)) []
  = map (fun j => sum_upto (fun k => f k j) (S i)) (seq 0 m).
Proof.
  intros Hi. destruct n as [| n]; [lia |].
  unfold rows. simpl seq. simpl map. unfold np.cumsum0.
  fold (rows m f 1 n).
  destruct i as [| i].
  - simpl. apply map_ext. intros j. ring.
  - simpl nth. rewrite (nth_cumsum_from m f n 1 i (f 0%nat)) by lia.
    apply map_ext. intros j.
    transitivity (sum_range (fun k => f k j) 0 (S (S i)));
      [reflexivity | apply sum_range_upto].
Qed.

Lemma price_paths_entry (S0 T r sigma : R) (n_steps : Z) (g : nat -> R)
    (n m i j : nat) :
  (i < n)%nat -> (j < m)%nat ->
  nth j (nth i (price_paths S0 T r sigma n_steps (np.table g n m)) []) 0
  = S0 * exp (sum_upto
                (fun k => (r - 0.5 * sigma ^ 2) * (T / IZR n_steps)
                          + sigma * sqrt (T / IZR n_steps) * g (k * m + j)%nat)
                (S i)).
Proof.
  intros Hi Hj. unfold price_paths.
  rewrite table_rows, sadd2_smul2_rows.
  unfold np.smul2, np.exp2. rewrite map_map.
  change (@nil R) with ((fun x => map (Rmult S0) (map exp x)) []) at 1.
  rewrite map_nth, nth_cumsum0 by exact Hi.
  rewrite !map_map. now rewrite nth_map_seq.
Qed.

Lemma last_price_paths (S0 K T r sigma : R) (n_sims n_steps : Z) (w : World)
    (d : np.array1) :
  (0 < n_steps)%Z ->
  last (price_paths S0 T r sigma n_steps
          (np.table (normals w) (Z.to_nat n_steps) (Z.to_nat n_sims))) d
  = terminal_vector S0 T r sigma n_sims n_steps w.
Proof.
  intros Hsteps. unfold price_paths, terminal_vector, terminal_price.
  rewrite table_rows, sadd2_smul2_rows.
  destruct (Z.to_nat n_steps) as [| n] eqn:En; [lia |].
  unfold np.smul2, np.exp2. rewrite map_map.
  set (g := fun x : list R => map (Rmult S0) (map exp x)).
  set (tab := rows _ _ 0 (S n)).
  destruct (np.cumsum0 tab) as [| row rest] eqn:Ec.
  - unfold tab, rows in Ec. simpl in Ec. discriminate.
  - change (map g (row :: rest)) with (g row :: map g rest).
    rewrite last_cons, (last_map g), <- (last_cons row row rest), <- Ec.
    unfold tab. rewrite last_cumsum0. unfold g.
    rewrite !map_map. apply map_ext. intros j. reflexivity.
Qed.

Lemma last_row_price_paths (S0 K T r sigma : R) (n_sims n_steps : Z)
    (w w0 : World) :
  (0 < n_steps)%Z ->
  np.last_row (price_paths S0 T r sigma n_steps
                 (np.table (normals w) (Z.to_nat n_steps) (Z.to_nat n_sims))) w0
  = inr (terminal_vector S0 T r sigma n_sims n_steps w, w0).
Proof.
  intros Hsteps.
  pose proof (last_price_paths S0 K T r sigma n_sims n_steps w [] Hsteps) as H.
  unfold np.last_row.
  destruct (price_paths _ _ _ _ _ _) as [| row rest] eqn:E.
  - unfold price_paths in E. rewrite table_rows, sadd2_smul2_rows in E.
    destruct (Z.to_nat n_steps) as [| n] eqn:En; [lia |].
    unfold rows in E. simpl in E. discriminate.
  - rewrite last_cons in H. unfold ret. now rewrite H.
Qed.

(** ** The simulator, run symbolically *)

Lemma maximum_terminal_vector (S0 K T r sigma : R) (n_sims n_steps : Z)
    (w : World) :
  np.maximum (np.ssub1 (terminal_vector S0 T r sigma n_sims n_steps w) K) 0
  = payoff_vector S0 K T r sigma n_sims n_steps w.
Proof.
  unfold np.maximum, np.ssub1, terminal_vector, payoff_vector.
  rewrite !map_map. reflexivity.
Qed.

Lemma standard_normal_ok (n m : Z) (w : World) :
  (0 <= n)%Z -> (0 <= m)%Z ->
  np.standard_normal (n, m) w
  = inr (np.table (normals w) (Z.to_nat n) (Z.to_nat m),
         mkWorld (fun k => normals w (Z.to_nat n * Z.to_nat m + k)%nat)
                 (clock w)).
Proof.
  intros Hn Hm. unfold np.standard_normal.
  destruct (Z.ltb_spec n 0) as [E | _]; [lia |].
  destruct (Z.ltb_spec m 0) as [E | _]; [lia |].
  reflexivity.
Qed.

Lemma standard_normal_negative (n m : Z) (w : World) :
  (n < 0)%Z \/ (m < 0)%Z -> np.standard_normal (n, m) w = inl ValueError.
Proof.
  intros H. unfold np.standard_normal.
  destruct (Z.ltb_spec n 0) as [_ | E]; [reflexivity |].
  destruct (Z.ltb_spec m 0) as [_ | E']; [reflexivity | lia].
Qed.

Lemma run_simulator (S0 K T r sigma : R) (n_sims n_steps : Z) (w : World) :
  (0 < n_steps)%Z -> (0 <= n_sims)%Z ->
  monte_carlo_option_pricing S0 K T r sigma n_sims n_steps w
  = inr (simulation_result S0 K T r sigma n_sims n_steps w,
         world_after n_sims n_steps w).
Proof.
  intros Hsteps Hsims.
  unfold monte_carlo_option_pricing.
  rewrite (bind_inr _ _ w _ _ eq_refl).
  unfold py_div.
  destruct (Z.eqb_spec n_steps 0) as [E | _]; [lia |].
  rewrite (bind_inr _ _ _ _ _ eq_refl).
  rewrite (bind_inr _ _ _ _ _ (standard_normal_ok n_steps n_sims _
                                 (Z.lt_le_incl _ _ Hsteps) Hsims)).
  cbv beta.
  change (np.smul2 S0 (np.exp2 (np.cumsum0 (np.sadd2 ?a (np.smul2 ?b ?t)))))
    with (price_paths S0 T r sigma n_steps t).
  change (normals {| normals := normals w; clock := ?c |}) with (normals w).
  rewrite (bind_inr _ _ _ _ _
             (last_row_price_paths S0 K T r sigma n_sims n_steps w _ Hsteps)).
  rewrite (bind_inr _ _ _ _ _ eq_refl).
  rewrite maximum_terminal_vector.
  reflexivity.
Qed.

Lemma run_simulator_zero_steps (S0 K T r sigma : R) (n_sims : Z) (w : World) :
  monte_carlo_option_pricing S0 K T r sigma n_sims 0 w = inl ZeroDivisionError.
Proof. reflexivity. Qed.

Lemma run_simulator_negative (S0 K T r sigma : R) (n_sims n_steps : Z)
    (w : World) :
  (n_steps < 0)%Z \/ ((0 < n_steps)%Z /\ (n_sims < 0)%Z) ->
  monte_carlo_option_pricing S0 K T r sigma n_sims n_steps w = inl ValueError.
Proof.
  intros H.
  unfold monte_carlo_option_pricing.
  rewrite (bind_inr _ _ w _ _ eq_refl).
  unfold py_div.
  destruct (Z.eqb_spec n_steps 0) as [E | _]; [lia |].
  rewrite (bind_inr _ _ _ _ _ eq_refl).
  apply bind_inl, standard_normal_negative. lia.
Qed.

(** ** Reductions over payoff vectors *)

Lemma sum_map_seq (f : nat -> R) (s n : nat) :
  np.sum (map f (seq s n)) = sum_range f s n.
Proof.
  revert s. induction n as [| n IH]; intros s; [reflexivity |].
  simpl. unfold np.sum in IH. now rewrite IH.
Qed.

Lemma mean_nonempty (a : np.array1) :
  a <> [] -> np.mean a = Fin (np.sum a / INR (length a)).
Proof. destruct a; [congruence | reflexivity]. Qed.

Lemma map_seq_nonempty {A} (f : nat -> A) (n : nat) :
  (0 < n)%nat -> map f (seq 0 n) <> [].
Proof. destruct n; [lia | discriminate]. Qed.

Lemma mean_map_seq (f : nat -> R) (n : nat) :
  (0 < n)%nat ->
  np.mean (map f (seq 0 n)) = Fin (sum_upto f n / INR n).
Proof.
  intros Hn. rewrite mean_nonempty by now apply map_seq_nonempty.
  now rewrite sum_map_seq, sum_range_upto, length_map, length_seq.
Qed.

Lemma std_map_seq (f : nat -> R) (n : nat) :
  (0 < n)%nat ->
  np.std (map f (seq 0 n))
  = Fin (sqrt (sum_upto (fun j => (f j - sum_upto f n / INR n)
                                  * (f j - sum_upto f n / INR n)) n
               / INR n)).
Proof.
  intros Hn. unfold np.std. rewrite (mean_map_seq f n Hn).
  rewrite map_map, mean_map_seq by exact Hn. reflexivity.
Qed.

Lemma terminal_vector_length (S0 T r sigma : R) (n_sims n_steps : Z)
    (w : World) :
  length (terminal_vector S0 T r sigma n_sims n_steps w) = Z.to_nat n_sims.
Proof. unfold terminal_vector. now rewrite length_map, length_seq. Qed.

Lemma terminal_vector_nth (S0 T r sigma : R) (n_sims n_steps : Z)
    (w : World) (j : nat) :
  (j < Z.to_nat n_sims)%nat ->
  nth j (terminal_vector S0 T r sigma n_sims n_steps w) 0
  = terminal_price S0 T r sigma n_sims n_steps w j.
Proof. intros Hj. unfold terminal_vector. now apply nth_map_seq. Qed.

Lemma valid_default_small : valid_parameters 100 105 1 0.05 0.2 2 3.
Proof. unfold valid_parameters. repeat split; try lra; lia. Defined.

Lemma table_entry (g : nat -> R) (n m i j : nat) :
  (i < n)%nat -> (j < m)%nat ->
  nth j (nth i (np.table g n m) []) 0 = g (i * m + j)%nat.
Proof.
  intros Hi Hj. unfold np.table.
  set (row := fun i => map (fun j => g (i * m + j)%nat) (seq 0 m)).
  rewrite (nth_indep _ [] (row 0%nat)) by now rewrite length_map, length_seq.
  rewrite (map_nth row (seq 0 n) 0%nat i), seq_nth by exact Hi.
  unfold row. now rewrite nth_map_seq.
Qed.

Lemma sum_upto_ext (f g : nat -> R) (n : nat) :
  (forall k, (k < n)%nat -> f k = g k) -> sum_upto f n = sum_upto g n.
Proof.
  induction n as [| n IH]; intros H; [reflexivity |].
  simpl. rewrite IH, (H n) by (intros; try apply H; lia). reflexivity.
Qed.

(** ** C1: the terminal price of every path *)

(** C1.  For every valid parameter record the simulator returns a result;
    with [dt = T / n_steps] and [drift = (r - 0.5 sigma^2) dt], entry
    [(i, j)] of its price table is [S0 * exp] of the sum of the increments
    [drift + sigma * sqrt dt * Z[k, j]] over the steps [k <= i], the
    terminal prices are the last row of that table, and the terminal price
    of path [j] is [S0 * exp] of the sum of the increments over all
    steps. *)
Theorem C1_terminal_price_formula
    (S0 K T r sigma : R) (n_sims n_steps : Z) (w : World) :
  (0 < n_steps)%Z -> (0 < n_sims)%Z -> 0 < T -> 0 < sigma -> 0 < S0 ->
  let dt := T / IZR n_steps in
  let drift := (r - 0.5 * sigma ^ 2) * dt in
  let Zt := np.table (normals w) (Z.to_nat n_steps) (Z.to_nat n_sims) in
  let increment k j := drift + sigma * sqrt dt * nth j (nth k Zt []) 0 in
  let table := price_paths S0 T r sigma n_steps Zt in
  exists res w',
    monte_carlo_option_pricing S0 K T r sigma n_sims n_steps w
    = inr (res, w')
    /\ (forall i j, (i < Z.to_nat n_steps)%nat -> (j < Z.to_nat n_sims)%nat ->
          nth j (nth i table []) 0
          = S0 * exp (sum_upto (fun k => increment k j) (S i)))
    /\ terminal_prices res = last table []
    /\ (forall j, (j < Z.to_nat n_sims)%nat ->
          nth j (terminal_prices res) 0
          = S0 * exp (sum_upto (fun k => increment k j) (Z.to_nat n_steps))).
Proof.
  intros Hsteps Hsims HT Hsigma HS0 dt drift Zt increment table.
  exists (simulation_result S0 K T r sigma n_sims n_steps w),
         (world_after n_sims n_steps w).
  assert (Hsum : forall i j, (i <= Z.to_nat n_steps)%nat ->
                             (j < Z.to_nat n_sims)%nat ->
            sum_upto (fun k => increment k j) i
            = sum_upto (fun k => drift + sigma * sqrt dt
                          * normals w (k * Z.to_nat n_sims + j)%nat) i).
  { intros i j Hi Hj. apply sum_upto_ext. intros k Hk.
    unfold increment, Zt. rewrite table_entry by lia. reflexivity. }
  split; [apply run_simulator; lia |].
  split; [| split].
  - intros i j Hi Hj. rewrite Hsum by lia.
    unfold table, Zt. now rewrite price_paths_entry.
  - unfold table, Zt. simpl terminal_prices.
    symmetry. now apply (last_price_paths S0 K).
  - intros j Hj. simpl terminal_prices.
    rewrite terminal_vector_nth, Hsum by (exact Hj || lia).
    reflexivity.
Qed.

Lemma C1_terminal_price_formula_witness :
  exists res w',
    monte_carlo_option_pricing 100 105 1 0.05 0.2 2 3 zero_world
    = inr (res, w')
    /\ length (terminal_prices res) = 2%nat.
Proof.
  destruct (C1_terminal_price_formula 100 105 1 0.05 0.2 2 3 zero_world)
    as (res & w' & Hrun & _ & Hlast & _); try lia; try lra.
  exists res, w'. split; [exact Hrun |].
  rewrite Hlast. reflexivity.
Defined.

(** ** Runs inside the float64 range *)

Lemma bounded_draws_zero_world : bounded_draws zero_world.
Proof. intros k. simpl. rewrite Rabs_R0. lra. Defined.

Lemma bounded_draws_step_world : bounded_draws step_world.
Proof.
  intros k. apply Rabs_le. destruct k as [| k]; simpl; lra.
Defined.

Ltac float_safe_small :=
  unfold float_safe;
  repeat (split; [first [lia | lra | apply Rabs_le; lra
                        | exact bounded_draws_zero_world
                        | exact bounded_draws_step_world] |]);
  let i := fresh "i" in
  let j := fresh "j" in
  let Hi := fresh "Hi" in
  let Hj := fresh "Hj" in
  intros i j Hi Hj; apply Rabs_le;
  destruct i as [| [| [| i]]]; simpl in *; try lia; split; nra.

Lemma float_safe_default_small : float_safe 100 105 1 0.05 0.2 2 3 zero_world.
Proof. float_safe_small. Defined.

Lemma float_safe_strike_110 : float_safe 100 110 1 0.05 0.2 2 3 zero_world.
Proof. float_safe_small. Defined.

Lemma valid_single_path : valid_parameters 100 105 1 0.05 0.2 1 3.
Proof. unfold valid_parameters. repeat split; try lra; lia. Defined.

Lemma float_safe_single_path :
  float_safe 100 105 1 0.05 0.2 1 3 zero_world.
Proof. float_safe_small. Defined.

Lemma float_safe_two_paths : float_safe 100 50 1 0.05 0.2 2 1 step_world.
Proof.
  unfold float_safe.
  repeat (split; [first [lia | lra | apply Rabs_le; lra
                        | exact bounded_draws_step_world] |]).
  intros i j Hi Hj. apply Rabs_le.
  replace (1 / 1) with 1 by lra. rewrite sqrt_1.
  destruct i as [| i]; [| simpl in Hi; lia].
  destruct j as [| [| j]]; [| | simpl in Hj; lia]; simpl; split; lra.
Defined.

Lemma valid_two_paths : valid_parameters 100 50 1 0.05 0.2 2 1.
Proof. unfold valid_parameters. repeat split; try lra; lia. Defined.

(** the run of the simulator, with the terminal prices and the payoffs
    written out path by path *)
Lemma run_simulator_paths
    (S0 K T r sigma : R) (n_sims n_steps : Z) (w : World) :
  (0 < n_steps)%Z -> (0 < n_sims)%Z ->
  let n := Z.to_nat n_sims in
  let dt := T / IZR n_steps in
  let drift := (r - 0.5 * sigma ^ 2) * dt in
  let ST j :=
    S0 * exp (sum_upto
                (fun k => drift + sigma * sqrt dt * normals w (k * n + j)%nat)
                (Z.to_nat n_steps)) in
  let p j := Rmax (ST j - K) 0 in
  let mu := sum_upto p n / INR n in
  let sd := sqrt (sum_upto (fun j => (p j - mu) * (p j - mu)) n / INR n) in
  exists res w',
    monte_carlo_option_pricing S0 K T r sigma n_sims n_steps w
    = inr (res, w')
    /\ simulations res = n_sims
    /\ terminal_prices res = map ST (seq 0 n)
    /\ map (fun st => Rmax (st - K) 0) (terminal_prices res) = map p (seq 0 n)
    /\ np.mean (map p (seq 0 n)) = Fin mu
    /\ np.std (map p (seq 0 n)) = Fin sd
    /\ option_price res = Fin (exp (- r * T) * mu)
    /\ std_error res = Fin (sd / sqrt (IZR n_sims))
    /\ confidence_interval_95 res = fmul (Fin 1.96) (std_error res).
Proof.
  intros Hsteps Hsims n dt drift ST p mu sd.
  assert (Hn : (0 < n)%nat) by (unfold n; lia).
  exists (simulation_result S0 K T r sigma n_sims n_steps w),
         (world_after n_sims n_steps w).
  split; [apply run_simulator; lia |].
  split; [reflexivity |].
  split; [reflexivity |].
  split; [cbn [terminal_prices simulation_result]; unfold terminal_vector;
          now rewrite map_map |].
  split; [now apply mean_map_seq |].
  split; [now apply std_map_seq |].
  split; [cbn [option_price simulation_result]; unfold payoff_vector;
          now rewrite mean_map_seq |].
  cbn [std_error confidence_interval_95 simulation_result].
  change (payoff_vector S0 K T r sigma n_sims n_steps w)
    with (map p (seq 0 n)).
  rewrite (std_map_seq p n Hn). split; reflexivity.
Qed.

(** ** C3: standard error and confidence half-width *)

(** C3.  For every run on a valid parameter record inside the float64
    range, the terminal prices are those of the [num_paths] simulated
    paths, the payoffs are [max(terminal_price - strike, 0)] over them,
    the reported standard error is the standard deviation of these payoffs
    divided by [sqrt(num_paths)], and the reported 95% half-width is the
    constant 1.96 times that standard error. *)
Theorem C3_std_error_and_half_width
    (S0 K T r sigma : R) (n_sims n_steps : Z) (w : World) :
  valid_parameters S0 K T r sigma n_sims n_steps ->
  float_safe S0 K T r sigma n_sims n_steps w ->
  let n := Z.to_nat n_sims in
  let dt := T / IZR n_steps in
  let drift := (r - 0.5 * sigma ^ 2) * dt in
  let ST j :=
    S0 * exp (sum_upto
                (fun k => drift + sigma * sqrt dt * normals w (k * n + j)%nat)
                (Z.to_nat n_steps)) in
  let p j := Rmax (ST j - K) 0 in
  let mu := sum_upto p n / INR n in
  let sd := sqrt (sum_upto (fun j => (p j - mu) * (p j - mu)) n / INR n) in
  exists res w',
    monte_carlo_option_pricing S0 K T r sigma n_sims n_steps w
    = inr (res, w')
    /\ simulations res = n_sims
    /\ terminal_prices res = map ST (seq 0 n)
    /\ length (terminal_prices res) = n
    /\ np.std (map (fun st => Rmax (st - K) 0) (terminal_prices res)) = Fin sd
    /\ std_error res = Fin (sd / sqrt (IZR (simulations res)))
    /\ confidence_interval_95 res = fmul (Fin 1.96) (std_error res)
    /\ confidence_interval_95 res
       = Fin (1.96 * (sd / sqrt (IZR (simulations res)))).
Proof.
  intros (_ & _ & _ & _ & Hsims & Hsteps) _ n dt drift ST p mu sd.
  destruct (run_simulator_paths S0 K T r sigma n_sims n_steps w Hsteps Hsims)
    as (res & w' & Hrun & Hcount & Htp & Hpay & _ & Hstd & _ & Hse & Hci).
  exists res, w'.
  split; [exact Hrun |]. split; [exact Hcount |]. split; [exact Htp |].
  split; [rewrite Htp; now rewrite length_map, length_seq |].
  split; [rewrite Hpay; exact Hstd |].
  rewrite Hcount. split; [exact Hse |]. split; [exact Hci |].
  rewrite Hci, Hse. reflexivity.
Qed.

Lemma C3_std_error_and_half_width_witness :
  exists res w' sd,
    monte_carlo_option_pricing 100 50 1 0.05 0.2 2 1 step_world
    = inr (res, w')
    /\ length (terminal_prices res) = 2%nat
    /\ std_error res = Fin (sd / sqrt (IZR (simulations res)))
    /\ confidence_interval_95 res
       = Fin (1.96 * (sd / sqrt (IZR (simulations res)))).
Proof.
  destruct (C3_std_error_and_half_width 100 50 1 0.05 0.2 2 1 step_world
              valid_two_paths float_safe_two_paths)
    as (res & w' & Hrun & _ & _ & Hlen & _ & Hse & _ & Hci).
  exists res, w'. eexists. repeat split; eassumption.
Defined.

(** ** C4: payoffs and the discounted price *)



(** ** C5: the terminal price vector *)



(** ** C9: the standard deviation convention *)

Lemma sqrt_div_neq (v : R) (n : nat) :
  0 < v -> (2 <= n)%nat ->
  sqrt (v / INR n) / sqrt (INR n) <> sqrt (v / (INR n - 1)) / sqrt (INR n).
Proof.
  intros Hv Hn E.
  assert (Hn2 : 2 <= INR n) by (apply (le_INR 2); exact Hn).
  assert (Hs : 0 < sqrt (INR n)) by (apply sqrt_lt_R0; lra).
  assert (E1 : sqrt (v / INR n) = sqrt (v / (INR n - 1))).
  { apply (Rmult_eq_reg_r (/ sqrt (INR n))); [exact E |].
    apply Rinv_neq_0_compat. lra. }
  assert (H1 : 0 < v / INR n) by (apply Rdiv_lt_0_compat; lra).
  assert (H2 : 0 < v / (INR n - 1)) by (apply Rdiv_lt_0_compat; lra).
  apply sqrt_inj in E1; try lra.
  assert (E2 : v * (INR n - 1) = v * INR n).
  { apply (Rmult_eq_compat_r (INR n * (INR n - 1))) in E1.
    field_simplify in E1; lra. }
  nra.
Qed.

Lemma sum_upto_ge_term (f : nat -> R) (n j : nat) :
  (forall k, 0 <= f k) -> (j < n)%nat -> f j <= sum_upto f n.
Proof.
  intros Hf. induction n as [| n IH]; intros Hj; [lia |].
  simpl. pose proof (Hf n) as Hfn.
  destruct (Nat.eq_dec j n) as [-> | Hne].
  - assert (0 <= sum_upto f n).
    { clear IH Hj. induction n as [| m IHm]; simpl; [lra |].
      pose proof (Hf m). lra. }
    lra.
  - assert (f j <= sum_upto f n) by (apply IH; lia). lra.
Qed.

(** two different values cannot both be the mean: the sum of the squared
    deviations is positive *)
Lemma squared_deviations_pos (p : nat -> R) (mu : R) (n j1 j2 : nat) :
  (j1 < n)%nat -> (j2 < n)%nat -> p j1 < p j2 ->
  0 < sum_upto (fun j => (p j - mu) * (p j - mu)) n.
Proof.
  intros H1 H2 Hlt.
  set (f := fun j => (p j - mu) * (p j - mu)).
  assert (Hf : forall k, 0 <= f k)
    by (intros k; unfold f; apply Rle_0_sqr).
  pose proof (sum_upto_ge_term f n j1 Hf H1) as G1.
  pose proof (sum_upto_ge_term f n j2 Hf H2) as G2.
  cbv beta delta [f] in G1, G2. fold f in G1, G2.
  destruct (Req_dec (p j1) mu) as [E | E].
  - assert (0 < (p j2 - mu) * (p j2 - mu))
      by (apply Rsqr_pos_lt; lra).
    lra.
  - assert (0 < (p j1 - mu) * (p j1 - mu))
      by (apply Rsqr_pos_lt; lra).
    lra.
Qed.

Lemma payoff_separated (a b K : R) :
  0 < a -> 0 < K -> (1 + 1e-6) * Rmax a K <= b ->
  Rmax (a - K) 0 < Rmax (b - K) 0.
Proof.
  intros Ha HK H.
  pose proof (Rmax_l a K) as H1. pose proof (Rmax_r a K) as H2.
  set (m := Rmax a K) in *. clearbody m.
  unfold Rmax.
  destruct (Rle_dec (a - K) 0), (Rle_dec (b - K) 0); lra.
Qed.

(** C9.  For every run on a valid parameter record inside the float64
    range, with [p j] the payoff [max(ST j - K, 0)] of the simulated path
    [j], [n] the number of paths and [mu] the mean payoff, the standard
    error is [sqrt (sum_j (p j - mu)^2 / n) / sqrt n]: the squared
    deviations are divided by [n] (population convention).  Whenever two
    paths are told apart by their payoffs (one terminal price lies at
    least one part in a million above the strike and above the other
    terminal price), the sum of the squared deviations is positive and
    the standard error differs from the value that dividing by [n - 1]
    would give. *)
Theorem C9_population_std
    (S0 K T r sigma : R) (n_sims n_steps : Z) (w : World) :
  valid_parameters S0 K T r sigma n_sims n_steps ->
  float_safe S0 K T r sigma n_sims n_steps w ->
  let n := Z.to_nat n_sims in
  let dt := T / IZR n_steps in
  let drift := (r - 0.5 * sigma ^ 2) * dt in
  let ST j :=
    S0 * exp (sum_upto
                (fun k => drift + sigma * sqrt dt * normals w (k * n + j)%nat)
                (Z.to_nat n_steps)) in
  let p j := Rmax (ST j - K) 0 in
  let mu := sum_upto p n / INR n in
  let sq := sum_upto (fun j => (p j - mu) * (p j - mu)) n in
  exists res w',
    monte_carlo_option_pricing S0 K T r sigma n_sims n_steps w
    = inr (res, w')
    /\ terminal_prices res = map ST (seq 0 n)
    /\ length (terminal_prices res) = n
    /\ np.std (map (fun st => Rmax (st - K) 0) (terminal_prices res))
       = Fin (sqrt (sq / INR n))
    /\ std_error res = Fin (sqrt (sq / INR n) / sqrt (INR n))
    /\ ((exists j1 j2, (j1 < n)%nat /\ (j2 < n)%nat
                       /\ (1 + 1e-6) * Rmax (ST j1) K <= ST j2) ->
        (2 <= n)%nat
        /\ 0 < sq
        /\ std_error res <> Fin (sqrt (sq / (INR n - 1)) / sqrt (INR n))).
Proof.
  intros (HS0 & HK & _ & _ & Hsims & Hsteps) _ n dt drift ST p mu sq.
  destruct (run_simulator_paths S0 K T r sigma n_sims n_steps w Hsteps Hsims)
    as (res & w' & Hrun & _ & Htp & Hpay & _ & Hstd & _ & Hse & _).
  assert (Hn : IZR n_sims = INR n).
  { unfold n. rewrite INR_IZR_INZ, Z2Nat.id by lia. reflexivity. }
  rewrite Hn in Hse.
  exists res, w'.
  split; [exact Hrun |]. split; [exact Htp |].
  split; [rewrite Htp; now rewrite length_map, length_seq |].
  split; [rewrite Hpay; exact Hstd |].
  split; [exact Hse |].
  intros (j1 & j2 & H1 & H2 & Hsep).
  assert (HST : forall j, 0 < ST j).
  { intros j. apply Rmult_lt_0_compat; [exact HS0 | apply exp_pos]. }
  assert (Hp : p j1 < p j2)
    by (apply payoff_separated; [apply HST | exact HK | exact Hsep]).
  assert (Hne : j1 <> j2) by (intros ->; lra).
  assert (Hn2 : (2 <= n)%nat) by lia.
  assert (Hsq : 0 < sq) by (apply (squared_deviations_pos p mu n j1 j2); auto).
  split; [exact Hn2 |]. split; [exact Hsq |].
  rewrite Hse. intros E. injection E as E.
  now apply (sqrt_div_neq sq n Hsq Hn2).
Qed.

Lemma C9_population_std_witness :
  exists res w' sq,
    monte_carlo_option_pricing 100 50 1 0.05 0.2 2 1 step_world
    = inr (res, w')
    /\ length (terminal_prices res) = 2%nat
    /\ 0 < sq
    /\ std_error res = Fin (sqrt (sq / INR 2) / sqrt (INR 2))
    /\ std_error res <> Fin (sqrt (sq / (INR 2 - 1)) / sqrt (INR 2)).
Proof.
  destruct (C9_population_std 100 50 1 0.05 0.2 2 1 step_world
              valid_two_paths float_safe_two_paths)
    as (res & w' & Hrun & _ & Hlen & _ & Hse & Hneq).
  change (Z.to_nat 2) with 2%nat in *. change (Z.to_nat 1) with 1%nat in *.
  destruct Hneq as (_ & Hsq & Hdiff).
  { exists 0%nat, 1%nat. split; [lia |]. split; [lia |].
    cbn [sum_upto Nat.mul Nat.add normals step_world].
    replace (1 / 1) with 1 by lra. rewrite sqrt_1.
    replace (0 + ((0.05 - 0.5 * 0.2 ^ 2) * 1 + 0.2 * 1 * 1))
      with (0.03 + 0.2) by lra.
    replace (0 + ((0.05 - 0.5 * 0.2 ^ 2) * 1 + 0.2 * 1 * 0))
      with 0.03 by lra.
    rewrite exp_plus.
    assert (H0 : exp 0 < exp 0.03) by (apply exp_increasing; lra).
    rewrite exp_0 in H0.
    pose proof (exp_ineq1 0.2 ltac:(lra)) as H2.
    rewrite Rmax_left by lra. nra. }
  exists res, w'. eexists.
  split; [exact Hrun |]. split; [exact Hlen |]. split; [exact Hsq |].
  split; [exact Hse | exact Hdiff].
Defined.

(** ** C6: degenerate path and step counts *)

(** The simulator never fails with the error kind of the specification. *)
Lemma never_InvalidParameter
    (S0 K T r sigma : R) (n_sims n_steps : Z) (w : World) :
  monte_carlo_option_pricing S0 K T r sigma n_sims n_steps w
  <> inl InvalidParameter.
Proof.
  destruct (Z.lt_trichotomy n_steps 0) as [H | [H | H]].
  - rewrite run_simulator_negative by tauto. discriminate.
  - subst. rewrite run_simulator_zero_steps. discriminate.
  - destruct (Z.lt_ge_cases n_sims 0) as [H' | H'].
    + rewrite run_simulator_negative by tauto. discriminate.
    + rewrite run_simulator by lia. discriminate.
Qed.

(** C6 fails on the code: with no paths and one time step the simulator
    performs the whole computation and returns a result. *)
Lemma C6_no_guard_counterexample :
  ((0 <= 0)%Z \/ (1 <= 0)%Z)
  /\ monte_carlo_option_pricing 100 105 1 0.05 0.2 0 1 zero_world
     <> inl InvalidParameter
  /\ exists res w',
       monte_carlo_option_pricing 100 105 1 0.05 0.2 0 1 zero_world
       = inr (res, w')
       /\ terminal_prices res = []
       /\ option_price res = NaN.
Proof.
  split; [left; lia |].
  split; [apply never_InvalidParameter |].
  eexists _, _. split; [apply run_simulator; lia |].
  split; reflexivity.
Qed.

(** C6, as the code behaves.  The simulator has no parameter guard and
    never raises InvalidParameter.  With [num_time_steps = 0] it stops at
    the computation of [dt] with a division error; with a negative count
    it stops when the table of draws is requested; in both cases before
    any simulation work.  With [num_paths = 0] and a positive number of
    steps it runs to the end and returns an empty terminal vector and nan
    for the price, the standard error and the half-width. *)
Theorem C6_degenerate_counts
    (S0 K T r sigma : R) (n_sims n_steps : Z) (w : World) :
  (n_sims <= 0)%Z \/ (n_steps <= 0)%Z ->
  let run := monte_carlo_option_pricing S0 K T r sigma n_sims n_steps w in
  run <> inl InvalidParameter
  /\ (n_steps = 0%Z -> run = inl ZeroDivisionError)
  /\ ((n_steps < 0)%Z \/ ((0 < n_steps)%Z /\ (n_sims < 0)%Z) ->
      run = inl ValueError)
  /\ ((0 < n_steps)%Z -> n_sims = 0%Z ->
      exists res w',
        run = inr (res, w')
        /\ terminal_prices res = []
        /\ option_price res = NaN
        /\ std_error res = NaN
        /\ confidence_interval_95 res = NaN).
Proof.
  intros _ run. unfold run.
  split; [apply never_InvalidParameter |].
  split; [intros ->; apply run_simulator_zero_steps |].
  split; [apply run_simulator_negative |].
  intros Hsteps ->.
  eexists _, _. split; [apply run_simulator; lia |].
  repeat split.
Qed.

Lemma C6_degenerate_counts_witness :
  monte_carlo_option_pricing 100 105 1 0.05 0.2 5 0 zero_world
  = inl ZeroDivisionError.
Proof.
  apply (C6_degenerate_counts 100 105 1 0.05 0.2 5 0 zero_world);
    [right; lia | reflexivity].
Defined.

(** ** Maxima and minima of non-empty arrays *)

Lemma fold_Rmax_ge (x : R) (l : list R) (y : R) :
  In y (x :: l) -> y <= fold_right Rmax x l.
Proof.
  induction l as [| z l IH]; simpl.
  - intros [-> | []]. lra.
  - intros [-> | [-> | H]].
    + eapply Rle_trans; [apply IH; now left | apply Rmax_r].
    + apply Rmax_l.
    + eapply Rle_trans; [apply IH; now right | apply Rmax_r].
Qed.

Lemma fold_Rmax_in (x : R) (l : list R) : In (fold_right Rmax x l) (x :: l).
Proof.
  induction l as [| z l IH]; simpl; [now left |].
  apply Rmax_case.
  - right. now left.
  - destruct IH as [H | H]; [now left | right; now right].
Qed.

Lemma fold_Rmin_le (x : R) (l : list R) (y : R) :
  In y (x :: l) -> fold_right Rmin x l <= y.
Proof.
  induction l as [| z l IH]; simpl.
  - intros [-> | []]. lra.
  - intros [-> | [-> | H]].
    + eapply Rle_trans; [apply Rmin_r | apply IH; now left].
    + apply Rmin_l.
    + eapply Rle_trans; [apply Rmin_r | apply IH; now right].
Qed.

Lemma fold_Rmin_in (x : R) (l : list R) : In (fold_right Rmin x l) (x :: l).
Proof.
  induction l as [| z l IH]; simpl; [now left |].
  apply Rmin_case.
  - right. now left.
  - destruct IH as [H | H]; [now left | right; now right].
Qed.


(** ** Shapes in the benchmark *)

Lemma table_length (g : nat -> R) (n m : nat) : length (np.table g n m) = n.
Proof. unfold np.table. now rewrite length_map, length_seq. Qed.

Lemma table_hd_length (g : nat -> R) (n m : nat) :
  (0 < n)%nat -> length (hd [] (np.table g n m)) = m.
Proof.
  intros Hn. destruct n as [| n]; [lia |].
  unfold np.table. simpl seq. simpl map. simpl hd.
  now rewrite length_map, length_seq.
Qed.

Lemma dot_length (a b : np.array2) : length (npstat.dot a b) = length a.
Proof. unfold npstat.dot. now rewrite length_map. Qed.

Lemma dot_row_length (a b : np.array2) :
  Forall (fun row => length row = length (hd [] b)) (npstat.dot a b).
Proof.
  unfold npstat.dot. apply Forall_map, Forall_forall. intros row _.
  now rewrite length_map, length_seq.
Qed.

Lemma leading_length (k : nat) (a : np.array2) :
  (k <= length a)%nat -> length (npstat.leading k a) = k.
Proof.
  intros Hk. unfold npstat.leading.
  rewrite length_map, length_firstn. lia.
Qed.

Lemma in_firstn {A} (k : nat) (l : list A) (x : A) :
  In x (firstn k l) -> In x l.
Proof.
  revert l. induction k as [| k IH]; intros [| y l]; simpl; try tauto.
  intros [H | H]; [now left | right; now apply IH].
Qed.

Lemma leading_row_length (k m : nat) (a : np.array2) :
  (k <= m)%nat -> Forall (fun row => length row = m) a ->
  Forall (fun row => length row = k) (npstat.leading k a).
Proof.
  intros Hk Ha. unfold npstat.leading.
  apply Forall_map, Forall_forall. intros row Hin.
  rewrite length_firstn.
  apply in_firstn in Hin.
  rewrite Forall_forall in Ha. rewrite (Ha row Hin). lia.
Qed.

(** ** Entries of tables, products and leading blocks *)






(** ** C8: the linear algebra benchmark *)

Section Benchmark.

Variable eigvals : np.array2 -> list npstat.complex.

(** LAPACK returns one eigenvalue per row of a square matrix. *)
Hypothesis eigvals_length : forall a, length (eigvals a) = length a.

Section AnySize.

Variable size : Z.
Hypothesis size_large : (1000 <= Z.to_nat size)%nat.

Lemma bench_A_shape (w : World) :
  length (bench_A size w) = Z.to_nat size
  /\ Forall (fun row => length row = Z.to_nat size) (bench_A size w).
Proof.
  unfold bench_A. split; [apply table_length |].
  unfold np.table. apply Forall_map, Forall_forall. intros i _.
  now rewrite length_map, length_seq.
Qed.

Lemma bench_B_shape (w : World) :
  length (bench_B size w) = Z.to_nat size
  /\ length (hd [] (bench_B size w)) = Z.to_nat size.
Proof.
  unfold bench_B. split; [apply table_length |].
  apply table_hd_length. lia.
Qed.

Lemma bench_block_shape (w : World) :
  length (bench_block size w) = 1000%nat
  /\ Forall (fun row => length row = 1000%nat) (bench_block size w).
Proof.
  unfold bench_block. split.
  - apply leading_length. rewrite dot_length.
    rewrite (proj1 (bench_A_shape w)). exact size_large.
  - apply (leading_row_length 1000 (Z.to_nat size)); [exact size_large |].
    rewrite <- (proj2 (bench_B_shape w)). apply dot_row_length.
Qed.

Lemma bench_spectrum_length (w : World) :
  length (bench_spectrum eigvals size w) = 1000%nat.
Proof.
  unfold bench_spectrum. rewrite eigvals_length.
  apply (proj1 (bench_block_shape w)).
Qed.








Lemma run_benchmark_at (w : World) :
  exists z ev w',
    bench_spectrum eigvals size w = z :: ev
    /\ benchmark_at eigvals size w
       = inr (mkBench size (clock w 1 - clock w 0)
                      (fold_right Rmax (npstat.Cmod z) (map npstat.Cmod ev)),
              w')
    /\ clock w' = (fun k => clock w (S (S k))).
Proof.
  pose proof (bench_spectrum_length w) as Hlen.
  destruct (bench_spectrum eigvals size w) as [| z ev] eqn:Esp;
    [simpl in Hlen; lia |].
  assert (Hsz : (0 <= size)%Z) by lia.
  eexists z, ev, _. split; [reflexivity |].
  unfold benchmark_at.
  rewrite (bind_inr _ _ w _ _ eq_refl).
  unfold np.randn.
  rewrite (bind_inr _ _ _ _ _ (standard_normal_ok size size _ Hsz Hsz)).
  rewrite (bind_inr _ _ _ _ _ (standard_normal_ok size size _ Hsz Hsz)).
  cbv beta zeta.
  rewrite (bind_inr _ _ _ _ _ eq_refl).
  cbn [normals clock].
  fold (bench_A size w). fold (bench_B size w). fold (bench_block size w).
  fold (bench_spectrum eigvals size w). rewrite Esp.
  split; reflexivity.
Qed.

End AnySize.



End Benchmark.


(** ** Sorting *)

Lemma insert_perm (x : R) (l : list R) :
  Permutation (x :: l) (npstat.insert x l).
Proof.
  induction l as [| y l IH]; simpl; [apply Permutation_refl |].
  destruct (Rle_dec x y); [apply Permutation_refl |].
  eapply perm_trans; [apply perm_swap | now apply perm_skip].
Qed.

Lemma sort_perm (a : list R) : Permutation a (npstat.sort a).
Proof.
  induction a as [| x a IH]; simpl; [apply perm_nil |].
  eapply perm_trans; [apply perm_skip, IH | apply insert_perm].
Qed.



Lemma insert_sorted (x : R) (l : list R) :
  StronglySorted Rle l -> StronglySorted Rle (npstat.insert x l).
Proof.
  induction 1 as [| y l Hl IH Hy]; simpl.
  - constructor; constructor.
  - destruct (Rle_dec x y) as [Hxy | Hxy].
    + constructor; [now constructor |].
      constructor; [exact Hxy |].
      eapply Forall_impl; [| exact Hy]. intros z Hz. lra.
    + constructor; [exact IH |].
      eapply Permutation_Forall; [apply insert_perm |].
      constructor; [lra | exact Hy].
Qed.

Lemma sort_sorted (a : list R) : StronglySorted Rle (npstat.sort a).
Proof.
  induction a as [| x a IH]; simpl; [constructor | now apply insert_sorted].
Qed.


(** ** Ranks between two neighbours of a sorted array *)


Lemma floor_nat_eq (h : R) (k : nat) :
  INR k <= h < INR k + 1 -> Z.to_nat (Zfloor h) = k.
Proof.
  intros Hk. rewrite (Zfloor_eq (Z.of_nat k)).
  - apply Nat2Z.id.
  - now rewrite <- INR_IZR_INZ.
Qed.



Section Rank.

Variable s : list R.
Variable n : nat.
Hypothesis s_sorted : StronglySorted Rle s.
Hypothesis s_length : length s = n.
Hypothesis n_pos : (0 < n)%nat.




End Rank.

(** ** The statistics row *)

Lemma percentile_run (a : np.array1) (q : R) (w : World) :
  a <> [] -> 0 <= q <= 100 ->
  npstat.percentile a q w = inr (Fin (percentile_value a q), w).
Proof.
  intros Ha [Hq0 Hq1]. unfold npstat.percentile.
  destruct (Rle_dec 0 q) as [_ | N]; [| contradiction].
  destruct (Rle_dec q 100) as [_ | N]; [| contradiction].
  destruct a as [| x a]; [congruence | reflexivity].
Qed.

Lemma median_rank (a : np.array1) :
  a <> [] -> npstat.median a = Fin (percentile_value a 50).
Proof.
  intros Ha. unfold percentile_value, rank_value, npstat.lerp.
  set (s := npstat.sort a). set (n := length a).
  assert (Hn : (0 < n)%nat)
    by (destruct a; [congruence | unfold n; simpl; lia]).
  assert (Hm : npstat.median a
               = if Nat.even n
                 then Fin ((nth (n / 2 - 1) s 0 + nth (n / 2) s 0) / 2)
                 else Fin (nth (n / 2) s 0))
    by (destruct a; [congruence | reflexivity]).
  rewrite Hm. clear Hm.
  destruct (Nat.even n) eqn:Ev.
  - apply Nat.even_spec in Ev. destruct Ev as [k Hk].
    assert (Hk1 : (1 <= k)%nat) by lia.
    assert (Hh : INR (n - 1) * (50 / 100) = INR (k - 1) + / 2).
    { replace (n - 1)%nat with (k + (k - 1))%nat by lia.
      rewrite plus_INR, !minus_INR by lia. simpl. lra. }
    rewrite Hh.
    rewrite (floor_nat_eq (INR (k - 1) + / 2) (k - 1)) by lra.
    replace (n / 2 - 1)%nat with (k - 1)%nat
      by (rewrite Hk, Nat.mul_comm, Nat.div_mul; lia).
    replace (n / 2)%nat with k by (rewrite Hk, Nat.mul_comm, Nat.div_mul; lia).
    replace (Nat.min (k - 1 + 1) (n - 1)) with k by lia.
    f_equal. lra.
  - assert (Od : Nat.odd n = true) by (unfold Nat.odd; now rewrite Ev).
    apply Nat.odd_spec in Od. destruct Od as [k Hk].
    assert (Hh : INR (n - 1) * (50 / 100) = INR k).
    { replace (n - 1)%nat with (k + k)%nat by lia. rewrite plus_INR. lra. }
    rewrite Hh.
    rewrite (floor_nat_eq (INR k) k) by lra.
    replace (n / 2)%nat with k.
    + f_equal. lra.
    + rewrite Hk. apply (Nat.div_unique _ 2 k 1); lia.
Qed.

Lemma run_terminal_stats (x : R) (l : np.array1) (w : World) :
  let a := x :: l in
  terminal_stats a w
  = inr (mkStats (Fin (np.sum a / INR (length a)))
                 (Fin (percentile_value a 50))
                 (np.std a)
                 (fold_right Rmin x l)
                 (fold_right Rmax x l)
                 (Fin (percentile_value a 25))
                 (Fin (percentile_value a 75))
                 (Fin (percentile_value a 95)),
         w).
Proof.
  intros a.
  assert (Ha : a <> []) by discriminate.
  unfold terminal_stats.
  rewrite (bind_inr _ _ w _ _ eq_refl).
  rewrite (bind_inr _ _ w _ _ eq_refl).
  rewrite (bind_inr _ _ w _ _ (percentile_run a 25 w Ha ltac:(lra))).
  rewrite (bind_inr _ _ w _ _ (percentile_run a 75 w Ha ltac:(lra))).
  rewrite (bind_inr _ _ w _ _ (percentile_run a 95 w Ha ltac:(lra))).
  rewrite (median_rank a Ha). reflexivity.
Qed.

(** ** C10: consistency of the descriptive statistics *)





(** ** C7: the comparison in the summary row *)

Lemma simulated_price_finite (S0 K T r sigma : R) (n_sims n_steps : Z)
    (w : World) :
  (0 < n_sims)%Z ->
  option_price (simulation_result S0 K T r sigma n_sims n_steps w)
  = Fin (exp (- r * T)
         * (sum_upto (payoff S0 K T r sigma n_sims n_steps w)
                     (Z.to_nat n_sims)
            / INR (Z.to_nat n_sims))).
Proof.
  intros Hsims. cbn [option_price simulation_result]. unfold payoff_vector.
  rewrite mean_map_seq by lia. reflexivity.
Qed.

Section Aggregator.

Variable eigvals : np.array2 -> list npstat.complex.
Hypothesis eigvals_length : forall a, length (eigvals a) = length a.

Section AnyParameters.

Variables S0 K T r sigma : R.
Variables n_sims n_steps size : Z.
Hypothesis n_sims_pos : (0 < n_sims)%Z.
Hypothesis n_steps_pos : (0 < n_steps)%Z.
Hypothesis size_large : (1000 <= Z.to_nat size)%nat.

Lemma run_main_at (w : World) :
  exists row stats w',
    main_at eigvals S0 K T r sigma n_sims n_steps size w
    = inr ((row, stats), w')
    /\ mc_option_price row
       = option_price (simulation_result S0 K T r sigma n_sims n_steps w)
    /\ analytical_bs_price row = analytical_price S0 K T r sigma
    /\ pricing_error row
       = fabs (fsub (mc_option_price row) (Fin (analytical_bs_price row)))
    /\ error_percentage row
       = fmul (fdiv (pricing_error row) (Fin (analytical_bs_price row)))
              (Fin 100)
    /\ forall w0,
         terminal_stats (terminal_vector S0 T r sigma n_sims n_steps w) w0
         = inr (stats, w0).
Proof.
  destruct (run_benchmark_at eigvals eigvals_length size size_large
              (world_after n_sims n_steps w))
    as (z & ev & w1 & _ & Hbench & _).
  assert (Hne : exists x l,
            terminal_vector S0 T r sigma n_sims n_steps w = x :: l).
  { unfold terminal_vector.
    destruct (Z.to_nat n_sims) as [| n] eqn:En; [lia |].
    rewrite <- cons_seq. simpl map. eauto. }
  destruct Hne as (x & l & Htv).
  eexists _, _, _. split.
  - unfold main_at.
    rewrite (bind_inr _ _ _ _ _
               (run_simulator S0 K T r sigma n_sims n_steps w n_steps_pos
                  (Z.lt_le_incl _ _ n_sims_pos))).
    rewrite (bind_inr _ _ _ _ _ Hbench).
    rewrite (bind_inr _ _ _ _ _ eq_refl).
    cbn [terminal_prices simulation_result].
    rewrite Htv.
    rewrite (bind_inr _ _ _ _ _ (run_terminal_stats x l _)).
    reflexivity.
  - cbn [mc_option_price analytical_bs_price pricing_error error_percentage].
    do 4 (split; [reflexivity |]).
    intros w0. rewrite Htv. apply run_terminal_stats.
Qed.

End AnyParameters.

Lemma main_at_default :
  main eigvals
  = main_at eigvals 100 105 1 0.05 0.2 SIMULATIONS TIME_STEPS 5000.
Proof. reflexivity. Qed.

(** C7.  [main] is the aggregator body at its constants.  For every
    choice of the parameters (positive counts, a matrix of at least 1000
    rows) and every world, the aggregator returns its two rows; in the
    summary row the simulated price [mc] and the analytical price [an] are
    numbers, the pricing error is [|mc - an|] and the error percentage is
    that absolute error divided by [an], times 100. *)
Theorem C7_pricing_error
    (S0 K T r sigma : R) (n_sims n_steps size : Z) (w : World) :
  (0 < n_sims)%Z -> (0 < n_steps)%Z -> (1000 <= Z.to_nat size)%nat ->
  main eigvals
  = main_at eigvals 100 105 1 0.05 0.2 SIMULATIONS TIME_STEPS 5000
  /\ exists row stats w' mc,
       main_at eigvals S0 K T r sigma n_sims n_steps size w
       = inr ((row, stats), w')
       /\ mc_option_price row = Fin mc
       /\ analytical_bs_price row = analytical_price S0 K T r sigma
       /\ pricing_error row = Fin (Rabs (mc - analytical_bs_price row))
       /\ error_percentage row
          = Fin (Rabs (mc - analytical_bs_price row)
                 / analytical_bs_price row * 100).
Proof.
  intros H1 H2 H3. split; [apply main_at_default |].
  destruct (run_main_at S0 K T r sigma n_sims n_steps size H1 H2 H3 w)
    as (row & stats & w' & Hrun & Hmc & Han & Herr & Hpct & _).
  rewrite (simulated_price_finite S0 K T r sigma _ _ w H1) in Hmc.
  eexists row, stats, w', _. split; [exact Hrun |].
  split; [exact Hmc |]. split; [exact Han |].
  rewrite Hmc in Herr. split; [exact Herr |].
  rewrite Hpct, Herr. reflexivity.
Qed.

End Aggregator.

Lemma C7_pricing_error_witness :
  exists row stats w' mc,
    main (fun a => repeat (0, 0) (length a)) zero_world
    = inr ((row, stats), w')
    /\ mc_option_price row = Fin mc
    /\ analytical_bs_price row = analytical_price 100 105 1 0.05 0.2
    /\ pricing_error row = Fin (Rabs (mc - analytical_bs_price row))
    /\ error_percentage row
       = Fin (Rabs (mc - analytical_bs_price row)
              / analytical_bs_price row * 100).
Proof.
  destruct (C7_pricing_error (fun a => repeat (0, 0) (length a))
              (fun a => repeat_length (0, 0) (length a))
              100 105 1 0.05 0.2 SIMULATIONS TIME_STEPS 5000 zero_world
              eq_refl eq_refl ltac:(lia))
    as (Hmain & row & stats & w' & mc & Hrun & H).
  rewrite <- Hmain in Hrun.
  exists row, stats, w', mc. split; [exact Hrun | exact H].
Defined.

(** ** Real analysis for the closed form price *)

Lemma derivable_pt_lim_eq (f : R -> R) (x l l' : R) :
  derivable_pt_lim f x l -> l = l' -> derivable_pt_lim f x l'.
Proof. now intros H <-. Qed.

(** derivative of an expression built from [+], [-], [*], [exp] and
    constants, one constructor at a time *)
Ltac derive_step :=
  cbv beta;
  lazymatch goal with
  | |- derivable_pt_lim (fun x => x) _ _ => apply derivable_pt_lim_id
  | |- derivable_pt_lim (fun x => @?f x + @?g x) _ _ =>
      eapply (derivable_pt_lim_plus f g)
  | |- derivable_pt_lim (fun x => @?f x - @?g x) _ _ =>
      eapply (derivable_pt_lim_minus f g)
  | |- derivable_pt_lim (fun x => @?f x * @?g x) _ _ =>
      eapply (derivable_pt_lim_mult f g)
  | |- derivable_pt_lim (fun x => - @?f x) _ _ =>
      eapply (derivable_pt_lim_opp f)
  | |- derivable_pt_lim (fun x => exp (@?f x)) _ _ =>
      eapply (derivable_pt_lim_comp f exp); [| apply derivable_pt_lim_exp]
  | |- derivable_pt_lim (fun x => ?c) _ _ => apply (derivable_pt_lim_const c)
  end.

Ltac derive := eapply derivable_pt_lim_eq; [repeat derive_step |].

(** A function with a non-negative derivative on an interval does not
    decrease there. *)
Lemma nondecreasing_on (f f' : R -> R) (a b : R) :
  (forall c, a <= c <= b -> derivable_pt_lim f c (f' c)) ->
  (forall c, a <= c <= b -> 0 <= f' c) ->
  forall x y, a <= x -> x <= y -> y <= b -> f x <= f y.
Proof.
  intros Hd Hpos x y Hax Hxy Hyb.
  destruct Hxy as [Hlt | ->]; [| lra].
  destruct (MVT_cor2 f f' x y Hlt) as (c & Hc & Hxc).
  - intros c Hc. apply Hd. lra.
  - assert (0 <= f' c) by (apply Hpos; lra). nra.
Qed.

(** Alternating Taylor bounds of [exp (- x)] for [x >= 0]. *)
Lemma exp_neg_ge_1 (x : R) : 1 - x <= exp (- x).
Proof. pose proof (exp_ineq1_le (- x)). lra. Qed.

Lemma exp_neg_le_2 (x : R) : 0 <= x -> exp (- x) <= 1 - x + x * x / 2.
Proof.
  intros Hx.
  set (f := fun t => 1 - t + t * t * / 2 - exp (- t)).
  assert (H : f 0 <= f x).
  { apply (nondecreasing_on f (fun t => t - 1 + exp (- t)) 0 x); try lra.
    - intros c _. unfold f. derive. field.
    - intros c _. pose proof (exp_neg_ge_1 c). lra. }
  unfold f in H. rewrite Ropp_0, exp_0 in H. lra.
Qed.

Lemma exp_neg_ge_3 (x : R) :
  0 <= x -> 1 - x + x * x / 2 - x * x * x / 6 <= exp (- x).
Proof.
  intros Hx.
  set (f := fun t => exp (- t) - (1 - t + t * t * / 2 - t * t * t * / 6)).
  assert (H : f 0 <= f x).
  { apply (nondecreasing_on f (fun t => 1 - t + t * t / 2 - exp (- t)) 0 x);
      try lra.
    - intros c _. unfold f. derive. field.
    - intros c Hc. pose proof (exp_neg_le_2 c (proj1 Hc)). lra. }
  unfold f in H. rewrite Ropp_0, exp_0 in H. lra.
Qed.

Lemma exp_neg_le_4 (x : R) :
  0 <= x ->
  exp (- x) <= 1 - x + x * x / 2 - x * x * x / 6 + x * x * x * x / 24.
Proof.
  intros Hx.
  set (f := fun t => 1 - t + t * t * / 2 - t * t * t * / 6
                     + t * t * t * t * / 24 - exp (- t)).
  assert (H : f 0 <= f x).
  { apply (nondecreasing_on f
             (fun t => exp (- t) - (1 - t + t * t / 2 - t * t * t / 6)) 0 x);
      try lra.
    - intros c _. unfold f. derive. field.
    - intros c Hc. pose proof (exp_neg_ge_3 c (proj1 Hc)). lra. }
  unfold f in H. rewrite Ropp_0, exp_0 in H. lra.
Qed.

Lemma exp_neg_ge_5 (x : R) :
  0 <= x ->
  1 - x + x * x / 2 - x * x * x / 6 + x * x * x * x / 24
  - x * x * x * x * x / 120 <= exp (- x).
Proof.
  intros Hx.
  set (f := fun t => exp (- t)
                     - (1 - t + t * t * / 2 - t * t * t * / 6
                        + t * t * t * t * / 24
                        - t * t * t * t * t * / 120)).
  assert (H : f 0 <= f x).
  { apply (nondecreasing_on f
             (fun t => 1 - t + t * t / 2 - t * t * t / 6
                       + t * t * t * t / 24 - exp (- t)) 0 x);
      try lra.
    - intros c _. unfold f. derive. field.
    - intros c Hc. pose proof (exp_neg_le_4 c (proj1 Hc)). lra. }
  unfold f in H. rewrite Ropp_0, exp_0 in H. lra.
Qed.

(** ** The Gaussian integral near the origin *)

Lemma norm_cdf_gauss (x : R) : norm_cdf x = 1 / 2 + gauss x.
Proof. reflexivity. Qed.

Lemma norm_cdf_0 : norm_cdf 0 = 1 / 2.
Proof. unfold norm_cdf. rewrite RiemannInt_P9. lra. Qed.

Lemma mass_from_minus_one_eq (x : R) :
  -1 <= x <= 1 ->
  mass_from_minus_one x = RiemannInt (norm_pdf_integrable (-1) x).
Proof.
  intros [H1 H2]. unfold mass_from_minus_one, primitive.
  destruct (Rle_dec (-1) x) as [r | N]; [| contradiction].
  destruct (Rle_dec x 1) as [r0 | N]; [| contradiction].
  apply RiemannInt_P5.
Qed.

Lemma gauss_mass (x : R) :
  -1 <= x <= 1 -> gauss x = mass_from_minus_one x - mass_from_minus_one 0.
Proof.
  intros Hx. rewrite !mass_from_minus_one_eq by lra. unfold gauss.
  pose proof (RiemannInt_P26 (norm_pdf_integrable (-1) 0)
                (norm_pdf_integrable 0 x) (norm_pdf_integrable (-1) x)).
  lra.
Qed.

Lemma mass_from_minus_one_derive (x : R) :
  -1 <= x <= 1 -> derivable_pt_lim mass_from_minus_one x (norm_pdf x).
Proof. intros Hx. now apply RiemannInt_P28. Qed.

Lemma sqrt_2PI_pos : 0 < sqrt (2 * PI).
Proof. apply sqrt_lt_R0. pose proof PI_RGT_0. lra. Qed.

Lemma gauss_minus_cubic_nondecreasing (x y : R) :
  -1 <= x -> x <= y -> y <= 1 ->
  mass_from_minus_one x - gauss_cubic x
  <= mass_from_minus_one y - gauss_cubic y.
Proof.
  pose proof sqrt_2PI_pos as Hs.
  apply (nondecreasing_on
           (fun t => mass_from_minus_one t - gauss_cubic t)
           (fun t => norm_pdf t - / sqrt (2 * PI) * (1 - t * t / 2))).
  - intros c Hc.
    apply (derivable_pt_lim_minus mass_from_minus_one gauss_cubic).
    + now apply mass_from_minus_one_derive.
    + unfold gauss_cubic. derive. field. lra.
  - intros c _. unfold norm_pdf.
    replace (- (c * c) / 2) with (- (c * c / 2)) by field.
    pose proof (exp_neg_ge_1 (c * c / 2)) as He.
    assert (Hi : 0 < / sqrt (2 * PI)) by now apply Rinv_0_lt_compat.
    unfold Rdiv at 1. nra.
Qed.

Lemma quintic_minus_gauss_nondecreasing (x y : R) :
  -1 <= x -> x <= y -> y <= 1 ->
  gauss_quintic x - mass_from_minus_one x
  <= gauss_quintic y - mass_from_minus_one y.
Proof.
  pose proof sqrt_2PI_pos as Hs.
  apply (nondecreasing_on
           (fun t => gauss_quintic t - mass_from_minus_one t)
           (fun t => / sqrt (2 * PI)
                     * (1 - t * t / 2 + (t * t / 2) * (t * t / 2) / 2)
                     - norm_pdf t)).
  - intros c Hc.
    apply (derivable_pt_lim_minus gauss_quintic mass_from_minus_one).
    + unfold gauss_quintic. derive. field. lra.
    + now apply mass_from_minus_one_derive.
  - intros c _. unfold norm_pdf.
    replace (- (c * c) / 2) with (- (c * c / 2)) by field.
    assert (Hu : 0 <= c * c / 2) by nra.
    pose proof (exp_neg_le_2 (c * c / 2) Hu) as He.
    assert (Hi : 0 < / sqrt (2 * PI)) by now apply Rinv_0_lt_compat.
    unfold Rdiv at 5. nra.
Qed.

Lemma gauss_cubic_0 : gauss_cubic 0 = 0.
Proof. unfold gauss_cubic. ring. Qed.

Lemma gauss_quintic_0 : gauss_quintic 0 = 0.
Proof. unfold gauss_quintic. ring. Qed.

Lemma gauss_bounds_right (x : R) :
  0 <= x <= 1 -> gauss_cubic x <= gauss x <= gauss_quintic x.
Proof.
  intros Hx. rewrite gauss_mass by lra.
  pose proof (gauss_minus_cubic_nondecreasing 0 x) as H1.
  pose proof (quintic_minus_gauss_nondecreasing 0 x) as H2.
  rewrite gauss_cubic_0 in H1. rewrite gauss_quintic_0 in H2.
  split; [apply Rle_trans with (1 := Rle_refl _) |]; lra.
Qed.

Lemma gauss_bounds_left (x : R) :
  -1 <= x <= 0 -> gauss_quintic x <= gauss x <= gauss_cubic x.
Proof.
  intros Hx. rewrite gauss_mass by lra.
  pose proof (gauss_minus_cubic_nondecreasing x 0) as H1.
  pose proof (quintic_minus_gauss_nondecreasing x 0) as H2.
  rewrite gauss_cubic_0 in H1. rewrite gauss_quintic_0 in H2.
  split; lra.
Qed.

(** ** Numerical enclosures *)

Lemma PI_bounds : 3.14159 < PI < 3.1416.
Proof.
  pose proof (PI_2_3_7_ineq 2) as [Hlo Hhi].
  unfold PI_2_3_7_tg, tg_alt, Ratan_seq in Hlo, Hhi.
  simpl in Hlo, Hhi. lra.
Qed.

Lemma sqrt_2PI_bounds : 2.50662 <= sqrt (2 * PI) <= 2.50664.
Proof.
  pose proof PI_bounds as [Hlo Hhi]. split.
  - rewrite <- (sqrt_square 2.50662) by lra. apply sqrt_le_1_alt. lra.
  - rewrite <- (sqrt_square 2.50664) by lra. apply sqrt_le_1_alt. lra.
Qed.

Lemma inv_sqrt_2PI_bounds :
  / 2.50664 <= / sqrt (2 * PI) <= / 2.50662.
Proof.
  pose proof sqrt_2PI_bounds as [Hlo Hhi]. split.
  - apply Rinv_le_contravar; lra.
  - apply Rinv_le_contravar; lra.
Qed.

Lemma cube_mono (x y : R) : x <= y -> x * x * x <= y * y * y.
Proof.
  intros Hxy.
  apply (nondecreasing_on (fun t => t * t * t) (fun t => 3 * (t * t)) x y);
    try lra.
  - intros c _. derive. ring.
  - intros c _. nra.
Qed.

Lemma pow5_mono (x y : R) :
  x <= y -> x * x * x * x * x <= y * y * y * y * y.
Proof.
  intros Hxy.
  apply (nondecreasing_on (fun t => t * t * t * t * t)
                          (fun t => 5 * ((t * t) * (t * t))) x y);
    try lra.
  - intros c _. derive. ring.
  - intros c _. pose proof (Rle_0_sqr (c * c)) as H. unfold Rsqr in H. lra.
Qed.

(** enclosure of the Gaussian integral at a point known up to an interval *)
Lemma gauss_enclosure_right (d a b : R) :
  0 <= a -> a <= d -> d <= b -> b <= 1 ->
  0 <= a - b * b * b / 6 ->
  / 2.50664 * (a - b * b * b / 6) <= gauss d
  /\ gauss d <= / 2.50662 * (b - a * a * a / 6 + b * b * b * b * b / 40).
Proof.
  intros Ha Had Hdb Hb Hpos.
  destruct (gauss_bounds_right d) as [Hlo Hhi]; [lra |].
  pose proof inv_sqrt_2PI_bounds as [Hc1 Hc2].
  pose proof (cube_mono a d Had) as C1. pose proof (cube_mono d b Hdb) as C2.
  pose proof (pow5_mono d b Hdb) as Q2.
  assert (Hclo : 0 < / 2.50664) by (apply Rinv_0_lt_compat; lra).
  unfold gauss_cubic in Hlo. unfold gauss_quintic in Hhi.
  set (c := / sqrt (2 * PI)) in *.
  split.
  - eapply Rle_trans; [| exact Hlo].
    apply Rmult_le_compat; lra.
  - eapply Rle_trans; [exact Hhi |].
    pose proof (pow5_mono 0 d ltac:(lra)) as Q0.
    assert (Hd3 : 0 <= d - d * d * d * / 6) by nra.
    apply Rmult_le_compat; lra.
Qed.

Lemma gauss_enclosure_left (d a b : R) :
  -1 <= a -> a <= d -> d <= b -> b <= 0 ->
  b - a * a * a / 6 <= 0 ->
  / 2.50662 * (a - b * b * b / 6 + a * a * a * a * a / 40) <= gauss d
  /\ gauss d <= / 2.50664 * (b - a * a * a / 6).
Proof.
  intros Ha Had Hdb Hb Hneg.
  destruct (gauss_bounds_left d) as [Hlo Hhi]; [lra |].
  pose proof inv_sqrt_2PI_bounds as [Hc1 Hc2].
  pose proof (cube_mono a d Had) as C1. pose proof (cube_mono d b Hdb) as C2.
  pose proof (pow5_mono a d Had) as Q1.
  pose proof (pow5_mono d 0 ltac:(lra)) as Q0.
  pose proof (cube_mono b 0 Hb) as C0.
  assert (Hclo : 0 < / 2.50664) by (apply Rinv_0_lt_compat; lra).
  unfold gauss_cubic in Hhi. unfold gauss_quintic in Hlo.
  set (c := / sqrt (2 * PI)) in *.
  split.
  - eapply Rle_trans; [| exact Hlo].
    assert (Hq : a - b * b * b / 6 + a * a * a * a * a / 40
                 <= d - d * d * d * / 6 + d * d * d * d * d * / 40) by lra.
    assert (Hq0 : d - d * d * d * / 6 + d * d * d * d * d * / 40 <= 0) by lra.
    nra.
  - eapply Rle_trans; [exact Hhi |].
    assert (Hp : d - d * d * d * / 6 <= b - a * a * a / 6) by lra.
    nra.
Qed.

Lemma ln_nondecreasing (x y : R) : 0 < x -> x <= y -> ln x <= ln y.
Proof.
  intros Hx [Hlt | ->]; [left; now apply ln_increasing | lra].
Qed.

Lemma ln_100_105_bounds : -0.0487903 <= ln (100 / 105) <= -0.04879.
Proof.
  split.
  - rewrite <- (ln_exp (-0.0487903)).
    apply ln_nondecreasing; [apply exp_pos |].
    pose proof (exp_neg_le_4 0.0487903 ltac:(lra)) as H.
    replace (-0.0487903) with (Ropp 0.0487903) by lra. lra.
  - rewrite <- (ln_exp (-0.04879)).
    apply ln_nondecreasing; [lra |].
    pose proof (exp_neg_ge_5 0.04879 ltac:(lra)) as H.
    replace (-0.04879) with (Ropp 0.04879) by lra. lra.
Qed.

Lemma exp_minus_005_bounds : 0.951229424 <= exp (- 0.05 * 1) <= 0.951229428.
Proof.
  replace (- 0.05 * 1) with (Ropp 0.05) by lra.
  pose proof (exp_neg_ge_5 0.05 ltac:(lra)).
  pose proof (exp_neg_le_4 0.05 ltac:(lra)).
  lra.
Qed.

(** ** C2: the closed form price *)

Lemma bs_d1_default :
  bs_d1 100 105 1 0.05 0.2 = (ln (100 / 105) + 0.07) / 0.2.
Proof.
  unfold bs_d1. rewrite sqrt_1.
  replace (0.2 * 1) with 0.2 by lra.
  replace ((0.05 + 0.5 * 0.2 ^ 2) * 1) with 0.07 by lra.
  reflexivity.
Qed.

Lemma bs_d2_default :
  bs_d2 100 105 1 0.05 0.2 = bs_d1 100 105 1 0.05 0.2 - 0.2.
Proof. unfold bs_d2. rewrite sqrt_1. ring. Qed.

Lemma bs_d1_bounds : 0.1060485 <= bs_d1 100 105 1 0.05 0.2 <= 0.10605.
Proof.
  rewrite bs_d1_default. pose proof ln_100_105_bounds as [Hlo Hhi].
  split; lra.
Qed.

Lemma bs_d2_bounds : -0.0939515 <= bs_d2 100 105 1 0.05 0.2 <= -0.09395.
Proof.
  rewrite bs_d2_default. pose proof bs_d1_bounds as [Hlo Hhi].
  split; lra.
Qed.

Lemma norm_cdf_d1_bounds :
  0.542227729 <= norm_cdf (bs_d1 100 105 1 0.05 0.2) <= 0.542228803.
Proof.
  pose proof bs_d1_bounds as [Hlo Hhi].
  destruct (gauss_enclosure_right (bs_d1 100 105 1 0.05 0.2)
              0.1060485 0.10605) as [G1 G2]; try lra.
  rewrite norm_cdf_gauss. split; lra.
Qed.

Lemma norm_cdf_d2_bounds :
  0.462573715 <= norm_cdf (bs_d2 100 105 1 0.05 0.2) <= 0.462574689.
Proof.
  pose proof bs_d2_bounds as [Hlo Hhi].
  destruct (gauss_enclosure_left (bs_d2 100 105 1 0.05 0.2)
              (-0.0939515) (-0.09395)) as [G1 G2]; try lra.
  rewrite norm_cdf_gauss. split; lra.
Qed.

Lemma analytical_price_closed_form (S0 K T r sigma : R) :
  analytical_price S0 K T r sigma = black_scholes_call S0 K T r sigma.
Proof. reflexivity. Qed.

Lemma black_scholes_default_bounds :
  8.0212 <= black_scholes_call 100 105 1 0.05 0.2 <= 8.0215.
Proof.
  unfold black_scholes_call.
  pose proof norm_cdf_d1_bounds as [A1 A2].
  pose proof norm_cdf_d2_bounds as [B1 B2].
  pose proof exp_minus_005_bounds as [E1 E2].
  replace (- 0.05 * 1) with (Ropp 0.05 * 1) in E1, E2 by lra.
  set (p1 := norm_cdf (bs_d1 100 105 1 0.05 0.2)) in *.
  set (p2 := norm_cdf (bs_d2 100 105 1 0.05 0.2)) in *.
  set (e := exp (- (0.05) * 1)) in *.
  assert (H1 : 0.951229424 * 0.462573715 <= e * p2)
    by (apply Rmult_le_compat; lra).
  assert (H2 : e * p2 <= 0.951229428 * 0.462574689)
    by (apply Rmult_le_compat; lra).
  split; lra.
Qed.

(** the summary row of [main], whenever it is produced, carries the
    closed form price of the default parameters *)
Lemma main_at_analytical (eigvals : np.array2 -> list npstat.complex)
    (S0 K T r sigma : R) (n_sims n_steps size : Z) (w w' : World)
    (row : SummaryRow) (stats : TerminalStatsRow) :
  main_at eigvals S0 K T r sigma n_sims n_steps size w
  = inr ((row, stats), w') ->
  analytical_bs_price row = analytical_price S0 K T r sigma.
Proof.
  unfold main_at, bind.
  destruct (monte_carlo_option_pricing S0 K T r sigma n_sims n_steps w)
    as [e | [mc w1]]; [discriminate |].
  destruct (benchmark_at eigvals size w1) as [e | [mr w2]]; [discriminate |].
  destruct (time_time w2) as [e | [now w3]]; [discriminate |].
  destruct (terminal_stats (terminal_prices mc) w3) as [e | [st w4]];
    [discriminate |].
  unfold ret. intros H. injection H as H _ _. now rewrite <- H.
Qed.

(** C2.  The price computed by the aggregator is the Black-Scholes closed
    form [S0 * Phi(d1) - K * exp(-r T) * Phi(d2)] with
    [d1 = (ln(S0/K) + (r + sigma^2/2) T) / (sigma sqrt T)] and
    [d2 = d1 - sigma sqrt T], [Phi] the standard normal distribution
    function; for S0 = 100, K = 105, T = 1, r = 0.05, sigma = 0.2 its
    value is within 0.001 of 8.0214, and that is the value in the summary
    row of every completed run of [main]. *)
Theorem C2_black_scholes_price :
  (forall S0 K T r sigma,
     analytical_price S0 K T r sigma
     = S0 * norm_cdf (bs_d1 S0 K T r sigma)
       - K * exp (- r * T) * norm_cdf (bs_d2 S0 K T r sigma))
  /\ (forall S0 K T r sigma,
        bs_d1 S0 K T r sigma
        = (ln (S0 / K) + (r + 0.5 * sigma ^ 2) * T) / (sigma * sqrt T)
        /\ bs_d2 S0 K T r sigma = bs_d1 S0 K T r sigma - sigma * sqrt T)
  /\ (forall x, norm_cdf x = 1 / 2 + RiemannInt (norm_pdf_integrable 0 x))
  /\ Rabs (analytical_price 100 105 1 0.05 0.2 - 8.0214) <= 0.001
  /\ (forall eigvals w row stats w',
        main eigvals w = inr ((row, stats), w') ->
        analytical_bs_price row = analytical_price 100 105 1 0.05 0.2).
Proof.
  split; [reflexivity |].
  split; [intros; split; reflexivity |].
  split; [reflexivity |].
  split.
  - rewrite analytical_price_closed_form.
    pose proof black_scholes_default_bounds as [Hlo Hhi].
    apply Rabs_le. lra.
  - intros eigvals w row stats w' Hrun.
    rewrite main_at_default in Hrun.
    exact (main_at_analytical _ _ _ _ _ _ _ _ _ _ _ _ _ Hrun).
Qed.

Lemma C2_black_scholes_price_witness :
  exists row stats w',
    main (fun a => repeat (0, 0) (length a)) zero_world
    = inr ((row, stats), w')
    /\ analytical_bs_price row = analytical_price 100 105 1 0.05 0.2
    /\ Rabs (analytical_price 100 105 1 0.05 0.2 - 8.0214) <= 0.001.
Proof.
  destruct (run_main_at (fun a => repeat (0, 0) (length a))
              (fun a => repeat_length (0, 0) (length a))
              100 105 1 0.05 0.2 SIMULATIONS TIME_STEPS 5000
              eq_refl eq_refl ltac:(lia) zero_world)
    as (row & stats & w' & Hrun & _).
  rewrite <- main_at_default in Hrun.
  destruct C2_black_scholes_price as (_ & _ & _ & Hval & Hmain).
  exists row, stats, w'.
  split; [exact Hrun |].
  split; [exact (Hmain _ _ _ _ _ Hrun) | exact Hval].
Defined.

(** * Further properties of the pipeline *)

(** ** Sums: order *)

Lemma sum_upto_le (f g : nat -> R) (n : nat) :
  (forall j, (j < n)%nat -> f j <= g j) -> sum_upto f n <= sum_upto g n.
Proof.
  induction n as [| n IH]; intros H; simpl; [lra |].
  assert (sum_upto f n <= sum_upto g n) by (apply IH; intros; apply H; lia).
  assert (f n <= g n) by (apply H; lia). lra.
Qed.

(** ** The generator and the clock after a simulation *)

(** X1. A run with a positive number of steps consumes exactly [n_steps *
    n_sims] draws, in that order, and two clock readings; it reports the
    number of paths it was given and the difference of the two readings as
    its elapsed time. *)
Theorem simulator_consumes_draws
    (S0 K T r sigma : R) (n_sims n_steps : Z) (w : World) :
  (0 < n_steps)%Z -> (0 <= n_sims)%Z ->
  exists res w',
    monte_carlo_option_pricing S0 K T r sigma n_sims n_steps w
    = inr (res, w')
    /\ simulations res = n_sims
    /\ elapsed_time res = clock w 1 - clock w 0
    /\ (forall k, normals w' k
                  = normals w (Z.to_nat n_steps * Z.to_nat n_sims + k)%nat)
    /\ (forall k, clock w' k = clock w (S (S k))).
Proof.
  intros Hsteps Hsims.
  eexists _, _. split; [now apply run_simulator |].
  repeat split.
Qed.

Lemma simulator_consumes_draws_witness :
  exists res w',
    monte_carlo_option_pricing 100 105 1 0.05 0.2 2 3 zero_world
    = inr (res, w')
    /\ simulations res = 2%Z
    /\ (forall k, normals w' k = normals zero_world (3 * 2 + k)%nat).
Proof.
  destruct (simulator_consumes_draws 100 105 1 0.05 0.2 2 3 zero_world)
    as (res & w' & Hrun & Hs & _ & Hn & _); try lia.
  exists res, w'. repeat split; assumption.
Defined.

(** ** The price as a function of the strike *)

Lemma payoff_antitone (S0 K1 K2 T r sigma : R) (n_sims n_steps : Z)
    (w : World) (j : nat) :
  K1 <= K2 ->
  payoff S0 K2 T r sigma n_sims n_steps w j
  <= payoff S0 K1 T r sigma n_sims n_steps w j.
Proof.
  intros HK. unfold payoff.
  apply Rmax_lub; [| apply Rmax_r].
  eapply Rle_trans; [| apply Rmax_l]. lra.
Qed.

(** X2. Inside the float64 range and on the same draws, the terminal
    prices do not depend on the strike, and the price estimate does not
    increase when the strike increases. *)
Theorem price_nonincreasing_in_strike
    (S0 K1 K2 T r sigma : R) (n_sims n_steps : Z) (w : World) :
  valid_parameters S0 K1 T r sigma n_sims n_steps ->
  float_safe S0 K1 T r sigma n_sims n_steps w ->
  float_safe S0 K2 T r sigma n_sims n_steps w ->
  K1 <= K2 ->
  exists res1 res2 w' p1 p2,
    monte_carlo_option_pricing S0 K1 T r sigma n_sims n_steps w
    = inr (res1, w')
    /\ monte_carlo_option_pricing S0 K2 T r sigma n_sims n_steps w
       = inr (res2, w')
    /\ length (terminal_prices res1) = Z.to_nat n_sims
    /\ terminal_prices res1 = terminal_prices res2
    /\ option_price res1 = Fin p1
    /\ option_price res2 = Fin p2
    /\ p2 <= p1.
Proof.
  intros (_ & _ & _ & _ & Hsims & Hsteps) _ _ HK.
  eexists _, _, _, _, _.
  split; [apply run_simulator; lia |].
  split; [apply run_simulator; lia |].
  split; [apply terminal_vector_length |].
  split; [reflexivity |].
  split; [now apply simulated_price_finite |].
  split; [now apply simulated_price_finite |].
  assert (Hn : 0 < INR (Z.to_nat n_sims)) by (apply lt_0_INR; lia).
  apply Rmult_le_compat_l; [left; apply exp_pos |].
  apply Rmult_le_compat_r; [left; now apply Rinv_0_lt_compat |].
  apply sum_upto_le. intros j _. now apply payoff_antitone.
Qed.

Lemma price_nonincreasing_in_strike_witness :
  exists res1 res2 w' p1 p2,
    monte_carlo_option_pricing 100 105 1 0.05 0.2 2 3 zero_world
    = inr (res1, w')
    /\ monte_carlo_option_pricing 100 110 1 0.05 0.2 2 3 zero_world
       = inr (res2, w')
    /\ length (terminal_prices res1) = 2%nat
    /\ terminal_prices res1 = terminal_prices res2
    /\ option_price res1 = Fin p1
    /\ option_price res2 = Fin p2
    /\ p2 <= p1.
Proof.
  apply (price_nonincreasing_in_strike 100 105 110 1 0.05 0.2 2 3 zero_world
           valid_default_small float_safe_default_small
           float_safe_strike_110).
  lra.
Defined.

(** X3. Inside the float64 range the price estimate is non-negative and
    does not exceed the discounted mean of the terminal prices. *)
Theorem price_between_forward_bounds
    (S0 K T r sigma : R) (n_sims n_steps : Z) (w : World) :
  valid_parameters S0 K T r sigma n_sims n_steps ->
  float_safe S0 K T r sigma n_sims n_steps w ->
  exists res w' p m,
    monte_carlo_option_pricing S0 K T r sigma n_sims n_steps w
    = inr (res, w')
    /\ length (terminal_prices res) = Z.to_nat n_sims
    /\ option_price res = Fin p
    /\ np.mean (terminal_prices res) = Fin m
    /\ 0 <= p <= exp (- r * T) * m.
Proof.
  intros (HS0 & HK & _ & _ & Hsims & Hsteps) _.
  set (n := Z.to_nat n_sims).
  assert (Hn : (0 < n)%nat) by (unfold n; lia).
  assert (HnR : 0 < INR n) by now apply lt_0_INR.
  eexists _, _, _, _.
  split; [apply run_simulator; lia |].
  split; [apply terminal_vector_length |].
  split; [now apply simulated_price_finite |].
  split.
  { cbn [terminal_prices simulation_result]. unfold terminal_vector.
    now apply mean_map_seq. }
  fold n.
  set (tp := terminal_price S0 T r sigma n_sims n_steps w).
  set (po := payoff S0 K T r sigma n_sims n_steps w).
  assert (Htp : forall j, 0 <= tp j).
  { intros j. unfold tp, terminal_price.
    apply Rmult_le_pos; [lra | left; apply exp_pos]. }
  assert (Hlo : sum_upto (fun _ => 0) n <= sum_upto po n).
  { apply sum_upto_le. intros j _. unfold po, payoff. apply Rmax_r. }
  assert (Hz : sum_upto (fun _ => 0) n = 0).
  { clear. induction n as [| k IH]; simpl; [reflexivity | lra]. }
  assert (Hhi : sum_upto po n <= sum_upto tp n).
  { apply sum_upto_le. intros j _. unfold po, payoff. fold tp.
    apply Rmax_lub; [lra | apply Htp]. }
  pose proof (exp_pos (- r * T)) as He.
  assert (Hi : 0 < / INR n) by now apply Rinv_0_lt_compat.
  split.
  - apply Rmult_le_pos; [lra |]. apply Rmult_le_pos; lra.
  - apply Rmult_le_compat_l; [lra |].
    apply Rmult_le_compat_r; lra.
Qed.

Lemma price_between_forward_bounds_witness :
  exists res w' p m,
    monte_carlo_option_pricing 100 105 1 0.05 0.2 2 3 zero_world
    = inr (res, w')
    /\ length (terminal_prices res) = 2%nat
    /\ option_price res = Fin p
    /\ np.mean (terminal_prices res) = Fin m
    /\ 0 <= p <= exp (- (0.05) * 1) * m.
Proof.
  apply (price_between_forward_bounds 100 105 1 0.05 0.2 2 3 zero_world
           valid_default_small float_safe_default_small).
Defined.

(** ** Sign of the reported uncertainty *)

(** X4. Inside the float64 range the standard error and the half-width
    are non-negative numbers. *)
Theorem std_error_nonneg
    (S0 K T r sigma : R) (n_sims n_steps : Z) (w : World) :
  valid_parameters S0 K T r sigma n_sims n_steps ->
  float_safe S0 K T r sigma n_sims n_steps w ->
  exists res w' se,
    monte_carlo_option_pricing S0 K T r sigma n_sims n_steps w
    = inr (res, w')
    /\ length (terminal_prices res) = Z.to_nat n_sims
    /\ std_error res = Fin se
    /\ confidence_interval_95 res = Fin (1.96 * se)
    /\ 0 <= se
    /\ 0 <= 1.96 * se.
Proof.
  intros (_ & _ & _ & _ & Hsims & Hsteps) _.
  destruct (run_simulator_paths S0 K T r sigma n_sims n_steps w Hsteps Hsims)
    as (res & w' & Hrun & _ & Htp & _ & _ & _ & _ & Hse & Hci).
  exists res, w'. eexists.
  split; [exact Hrun |].
  split; [rewrite Htp; now rewrite length_map, length_seq |].
  split; [exact Hse |].
  split; [rewrite Hci, Hse; reflexivity |].
  assert (Hs : 0 < sqrt (IZR n_sims)).
  { apply sqrt_lt_R0. now apply IZR_lt. }
  match goal with
  | |- 0 <= ?a / _ /\ _ =>
      assert (H : 0 <= a / sqrt (IZR n_sims))
        by (apply Rmult_le_pos;
            [apply sqrt_pos | left; now apply Rinv_0_lt_compat])
  end.
  split; [exact H | lra].
Qed.

Lemma std_error_nonneg_witness :
  exists res w' se,
    monte_carlo_option_pricing 100 105 1 0.05 0.2 2 3 zero_world
    = inr (res, w')
    /\ std_error res = Fin se
    /\ confidence_interval_95 res = Fin (1.96 * se)
    /\ 0 <= se.
Proof.
  destruct (std_error_nonneg 100 105 1 0.05 0.2 2 3 zero_world
              valid_default_small float_safe_default_small)
    as (res & w' & se & Hrun & _ & Hse & Hci & Hpos & _).
  exists res, w', se. repeat split; assumption.
Defined.

(** ** Degenerate runs: no volatility, a single path *)

Lemma terminal_price_zero_volatility (S0 T r : R) (n_sims n_steps : Z)
    (w : World) (j : nat) :
  terminal_price S0 T r 0 n_sims n_steps w j
  = S0 * exp (sum_upto (fun _ => (r - 0.5 * 0 ^ 2) * (T / IZR n_steps))
                       (Z.to_nat n_steps)).
Proof.
  unfold terminal_price. f_equal. f_equal.
  apply sum_upto_ext. intros i _.
  unfold log_increment, drift_term, time_increment. ring.
Qed.

Lemma map_const_seq {A} (c : A) (s n : nat) :
  map (fun _ => c) (seq s n) = repeat c n.
Proof.
  revert s. induction n as [| n IH]; intros s; [reflexivity |].
  simpl. now rewrite IH.
Qed.

(** X5. With zero volatility the draws play no role: on parameters and
    draws of moderate size, two runs on different draws return the same
    terminal prices, all equal to the initial price times the exponential
    of the accumulated drift, the same price estimate, the same standard
    error and the same half-width. *)
Theorem zero_volatility_run
    (S0 K T r : R) (n_sims n_steps : Z) (w1 w2 : World) :
  (0 < n_steps <= 1000000000000)%Z -> (0 < n_sims <= 1000000000000)%Z ->
  1e-10 <= S0 <= 1e10 -> 1e-10 <= K <= 1e10 -> 1e-10 <= T <= 1e4 ->
  Rabs r <= 100 -> Rabs (r * T) <= 100 ->
  bounded_draws w1 -> bounded_draws w2 ->
  let c :=
    S0 * exp (sum_upto (fun _ => (r - 0.5 * 0 ^ 2) * (T / IZR n_steps))
                       (Z.to_nat n_steps)) in
  exists res1 res2 w1' w2',
    monte_carlo_option_pricing S0 K T r 0 n_sims n_steps w1
    = inr (res1, w1')
    /\ monte_carlo_option_pricing S0 K T r 0 n_sims n_steps w2
       = inr (res2, w2')
    /\ terminal_prices res1 = repeat c (Z.to_nat n_sims)
    /\ terminal_prices res2 = terminal_prices res1
    /\ option_price res2 = option_price res1
    /\ std_error res2 = std_error res1
    /\ confidence_interval_95 res2 = confidence_interval_95 res1.
Proof.
  intros [Hsteps _] [Hsims _] _ _ _ _ _ _ _ c.
  assert (Htv : forall w, terminal_vector S0 T r 0 n_sims n_steps w
                          = repeat c (Z.to_nat n_sims)).
  { intros w. unfold terminal_vector. rewrite <- (map_const_seq c 0).
    apply map_ext. intros j. apply terminal_price_zero_volatility. }
  assert (Hpv : forall w, payoff_vector S0 K T r 0 n_sims n_steps w
                          = map (fun _ => Rmax (c - K) 0)
                                (seq 0 (Z.to_nat n_sims))).
  { intros w. unfold payoff_vector. apply map_ext. intros j.
    unfold payoff. now rewrite terminal_price_zero_volatility. }
  eexists _, _, _, _.
  split; [apply run_simulator; lia |].
  split; [apply run_simulator; lia |].
  cbn [terminal_prices option_price std_error confidence_interval_95
       simulation_result].
  rewrite !Htv, !Hpv. repeat split.
Qed.

Lemma zero_volatility_run_witness :
  exists res1 res2 w1' w2',
    monte_carlo_option_pricing 100 105 1 0.05 0 2 3 zero_world
    = inr (res1, w1')
    /\ monte_carlo_option_pricing 100 105 1 0.05 0 2 3 step_world
       = inr (res2, w2')
    /\ terminal_prices res2 = terminal_prices res1
    /\ option_price res2 = option_price res1
    /\ std_error res2 = std_error res1.
Proof.
  destruct (zero_volatility_run 100 105 1 0.05 2 3 zero_world step_world)
    as (res1 & res2 & w1' & w2' & H1 & H2 & _ & Htp & Hp & Hse & _);
    try lia; try lra; try (apply Rabs_le; lra);
    [exact bounded_draws_zero_world | exact bounded_draws_step_world |].
  exists res1, res2, w1', w2'. repeat split; assumption.
Defined.

Lemma mean_single (x : R) : np.mean [x] = Fin x.
Proof. unfold np.mean. simpl. f_equal. field. Qed.

Lemma std_single (x : R) : np.std [x] = Fin 0.
Proof.
  unfold np.std. rewrite mean_single. simpl map. rewrite mean_single.
  simpl. f_equal. replace ((x - x) * (x - x)) with 0 by ring. apply sqrt_0.
Qed.

(** X6. With a single path, inside the float64 range, the standard error
    and the half-width are 0, whatever the draws, and the price estimate
    is the discounted payoff of that path. *)
Theorem single_path_run
    (S0 K T r sigma : R) (n_steps : Z) (w : World) :
  valid_parameters S0 K T r sigma 1 n_steps ->
  float_safe S0 K T r sigma 1 n_steps w ->
  let st :=
    S0 * exp (sum_upto
                (fun k => (r - 0.5 * sigma ^ 2) * (T / IZR n_steps)
                          + sigma * sqrt (T / IZR n_steps)
                            * normals w (k * 1 + 0)%nat)
                (Z.to_nat n_steps)) in
  exists res w',
    monte_carlo_option_pricing S0 K T r sigma 1 n_steps w = inr (res, w')
    /\ terminal_prices res = [st]
    /\ option_price res = Fin (exp (- r * T) * Rmax (st - K) 0)
    /\ std_error res = Fin 0
    /\ confidence_interval_95 res = Fin 0.
Proof.
  intros (_ & _ & _ & _ & _ & Hsteps) _ st.
  eexists _, _. split; [apply run_simulator; lia |].
  cbn [terminal_prices option_price std_error confidence_interval_95
       simulation_result].
  unfold payoff_vector, terminal_vector.
  change (Z.to_nat 1) with 1%nat. simpl map.
  split; [reflexivity |].
  rewrite std_single, mean_single.
  split; [| split].
  - reflexivity.
  - simpl. f_equal. unfold Rdiv. ring.
  - simpl. f_equal. unfold Rdiv. ring.
Qed.

Lemma single_path_run_witness :
  exists res w' st,
    monte_carlo_option_pricing 100 105 1 0.05 0.2 1 3 zero_world
    = inr (res, w')
    /\ terminal_prices res = [st]
    /\ std_error res = Fin 0.
Proof.
  destruct (single_path_run 100 105 1 0.05 0.2 3 zero_world
              valid_single_path float_safe_single_path)
    as (res & w' & Hrun & Htp & _ & Hse & _).
  exists res, w'. eexists. repeat split; eassumption.
Defined.

(** ** Outcomes of the benchmark and of the whole pipeline *)

Section Outcomes.

Variable eigvals : np.array2 -> list npstat.complex.

Section AnyConstants.

Variables S0 K T r sigma : R.
Variables n_sims n_steps size : Z.
Hypothesis n_sims_pos : (0 < n_sims)%Z.
Hypothesis n_steps_pos : (0 < n_steps)%Z.
Hypothesis size_nonneg : (0 <= size)%Z.

Lemma benchmark_at_cases (w : World) :
  (bench_spectrum eigvals size w = [] ->
   benchmark_at eigvals size w = inl ValueError)
  /\ (forall z ev,
        bench_spectrum eigvals size w = z :: ev ->
        exists w',
          benchmark_at eigvals size w
          = inr (mkBench size (clock w 1 - clock w 0)
                         (fold_right Rmax (npstat.Cmod z)
                                     (map npstat.Cmod ev)),
                 w')
          /\ clock w' = (fun k => clock w (S (S k)))).
Proof.
  assert (Hrun : benchmark_at eigvals size w
                 = bind (npstat.max (npstat.abs (bench_spectrum eigvals size w)))
                        (fun mx => ret (mkBench size (clock w 1 - clock w 0) mx))
                        (mkWorld
                           (fun k => normals w
                              (Z.to_nat size * Z.to_nat size
                               + (Z.to_nat size * Z.to_nat size + k))%nat)
                           (fun k => clock w (S (S k))))).
  { unfold benchmark_at.
    rewrite (bind_inr _ _ w _ _ eq_refl).
    unfold np.randn.
    rewrite (bind_inr _ _ _ _ _
               (standard_normal_ok size size _ size_nonneg size_nonneg)).
    rewrite (bind_inr _ _ _ _ _
               (standard_normal_ok size size _ size_nonneg size_nonneg)).
    cbv beta zeta.
    rewrite (bind_inr _ _ _ _ _ eq_refl).
    reflexivity. }
  split.
  - intros E. rewrite Hrun, E. reflexivity.
  - intros z ev E. rewrite Hrun, E. eexists. split; reflexivity.
Qed.

Lemma terminal_stats_of_run (w w0 : World) :
  exists stats,
    terminal_stats (terminal_vector S0 T r sigma n_sims n_steps w) w0
    = inr (stats, w0).
Proof.
  unfold terminal_vector.
  destruct (Z.to_nat n_sims) as [| n] eqn:En; [lia |].
  rewrite <- cons_seq. simpl map. eexists. apply run_terminal_stats.
Qed.

Lemma main_at_cases (w : World) :
  let sp := bench_spectrum eigvals size (world_after n_sims n_steps w) in
  let sr := simulation_result S0 K T r sigma n_sims n_steps w in
  let an := analytical_price S0 K T r sigma in
  (sp = [] ->
   main_at eigvals S0 K T r sigma n_sims n_steps size w = inl ValueError)
  /\ (forall z ev,
        sp = z :: ev ->
        exists stats w',
          main_at eigvals S0 K T r sigma n_sims n_steps size w
          = inr ((mkSummary
                    (clock w 4)
                    n_sims
                    (option_price sr)
                    (std_error sr)
                    (confidence_interval_95 sr)
                    (clock w 1 - clock w 0)
                    an
                    (fabs (fsub (option_price sr) (Fin an)))
                    (fmul (fdiv (fabs (fsub (option_price sr) (Fin an)))
                                (Fin an)) (Fin 100))
                    size
                    (clock w 3 - clock w 2)
                    (fold_right Rmax (npstat.Cmod z) (map npstat.Cmod ev))
                    (clock w 1 - clock w 0 + (clock w 3 - clock w 2)),
                  stats), w')).
Proof.
  intros sp sr an.
  pose proof (run_simulator S0 K T r sigma n_sims n_steps w n_steps_pos
                (Z.lt_le_incl _ _ n_sims_pos)) as Hsim.
  destruct (benchmark_at_cases (world_after n_sims n_steps w)) as [Hnil Hcons].
  split.
  - intros E. unfold main_at.
    rewrite (bind_inr _ _ _ _ _ Hsim).
    apply bind_inl. now apply Hnil.
  - intros z ev E.
    destruct (Hcons z ev E) as (w1 & Hbench & Hclock).
    destruct (terminal_stats_of_run w
                (mkWorld (normals w1) (fun k => clock w1 (S k))))
      as (stats & Hstats).
    exists stats. eexists.
    unfold main_at.
    rewrite (bind_inr _ _ _ _ _ Hsim).
    rewrite (bind_inr _ _ _ _ _ Hbench).
    rewrite (bind_inr _ _ _ _ _ eq_refl).
    cbn [terminal_prices simulation_result].
    rewrite (bind_inr _ _ _ _ _ Hstats).
    rewrite Hclock. reflexivity.
Qed.

Lemma summary_at_bookkeeping (w : World) :
  bench_spectrum eigvals size (world_after n_sims n_steps w) <> [] ->
  exists row stats w',
    main_at eigvals S0 K T r sigma n_sims n_steps size w
    = inr ((row, stats), w')
    /\ monte_carlo_simulations row = n_sims
    /\ matrix_computation_size row = size
    /\ mc_elapsed_time_sec row = clock w 1 - clock w 0
    /\ matrix_elapsed_time_sec row = clock w 3 - clock w 2
    /\ total_elapsed_time_sec row
       = mc_elapsed_time_sec row + matrix_elapsed_time_sec row
    /\ mc_ci_95 row = fmul (Fin 1.96) (mc_std_error row)
    /\ ((forall k, clock w k <= clock w (S k)) ->
        0 <= mc_elapsed_time_sec row
        /\ 0 <= matrix_elapsed_time_sec row
        /\ 0 <= total_elapsed_time_sec row).
Proof.
  intros Hne.
  destruct (main_at_cases w) as [_ Hcons].
  destruct (bench_spectrum eigvals size (world_after n_sims n_steps w))
    as [| z ev]; [congruence |].
  destruct (Hcons z ev eq_refl) as (stats & w' & Hrun).
  eexists _, stats, w'. split; [exact Hrun |].
  cbn [monte_carlo_simulations matrix_computation_size mc_elapsed_time_sec
       matrix_elapsed_time_sec total_elapsed_time_sec mc_ci_95
       mc_std_error].
  do 6 (split; [reflexivity |]).
  intros Hmono.
  pose proof (Hmono 0%nat). pose proof (Hmono 2%nat).
  repeat split; lra.
Qed.

End AnyConstants.

(** X10. The bookkeeping fields of the summary row: the path count and the
    matrix size are the constants of the program, the two stage times are
    differences of consecutive readings of [time.time()], the total is
    their sum, and the half-width column is 1.96 times the standard error
    column.  If the clock never runs backwards, the two stage times and
    their sum are non-negative. *)
Theorem summary_row_bookkeeping (w : World) :
  bench_spectrum eigvals 5000 (world_after SIMULATIONS TIME_STEPS w) <> [] ->
  exists row stats w',
    main eigvals w = inr ((row, stats), w')
    /\ monte_carlo_simulations row = 10000000%Z
    /\ matrix_computation_size row = 5000%Z
    /\ mc_elapsed_time_sec row = clock w 1 - clock w 0
    /\ matrix_elapsed_time_sec row = clock w 3 - clock w 2
    /\ total_elapsed_time_sec row
       = mc_elapsed_time_sec row + matrix_elapsed_time_sec row
    /\ mc_ci_95 row = fmul (Fin 1.96) (mc_std_error row)
    /\ ((forall k, clock w k <= clock w (S k)) ->
        0 <= mc_elapsed_time_sec row
        /\ 0 <= matrix_elapsed_time_sec row
        /\ 0 <= total_elapsed_time_sec row).
Proof.
  intros Hne. rewrite main_at_default.
  exact (summary_at_bookkeeping 100 105 1 0.05 0.2 SIMULATIONS TIME_STEPS
           5000 eq_refl eq_refl ltac:(lia) w Hne).
Qed.

End Outcomes.

Lemma summary_row_bookkeeping_witness :
  exists row stats w',
    main (fun a => repeat (0, 0) (length a)) zero_world
    = inr ((row, stats), w')
    /\ monte_carlo_simulations row = 10000000%Z
    /\ total_elapsed_time_sec row
       = mc_elapsed_time_sec row + matrix_elapsed_time_sec row
    /\ 0 <= total_elapsed_time_sec row.
Proof.
  destruct (summary_row_bookkeeping (fun a => repeat (0, 0) (length a))
              zero_world)
    as (row & stats & w' & Hrun & Hn & _ & _ & _ & Htot & _ & Hpos).
  - intros E. apply (f_equal (@length _)) in E.
    unfold bench_spectrum in E. rewrite repeat_length in E.
    rewrite (proj1 (bench_block_shape 5000 ltac:(lia) _)) in E.
    discriminate.
  - exists row, stats, w'. split; [exact Hrun |]. split; [exact Hn |].
    split; [exact Htot |].
    apply Hpos. intros k. change (INR k <= INR (S k)).
    rewrite S_INR. lra.
Defined.

(** ** The statistics do not depend on the order of the paths *)

Lemma sorted_perm_eq (l1 l2 : list R) :
  StronglySorted Rle l1 -> StronglySorted Rle l2 -> Permutation l1 l2 ->
  l1 = l2.
Proof.
  intros H1. revert l2.
  induction H1 as [| x l1 Hs1 IH Hx]; intros l2 H2 Hp.
  - apply Permutation_nil in Hp. now subst.
  - destruct H2 as [| y l2 Hs2 Hy].
    + apply Permutation_sym, Permutation_nil in Hp. discriminate.
    + rewrite Forall_forall in Hx, Hy.
      assert (Hxy : x = y).
      { assert (In x (y :: l2)) as [E | Hin]
          by (eapply Permutation_in; [exact Hp | now left]); [now subst |].
        assert (In y (x :: l1)) as [E | Hin']
          by (eapply Permutation_in;
              [apply Permutation_sym; exact Hp | now left]); [now subst |].
        apply Rle_antisym; [now apply Hx | now apply Hy]. }
      subst y. f_equal. apply IH; [exact Hs2 |].
      now apply Permutation_cons_inv with x.
Qed.

Lemma sort_perm_eq (a b : np.array1) :
  Permutation a b -> npstat.sort a = npstat.sort b.
Proof.
  intros H. apply sorted_perm_eq; try apply sort_sorted.
  eapply perm_trans; [apply Permutation_sym, sort_perm |].
  eapply perm_trans; [exact H | apply sort_perm].
Qed.

Lemma fold_Rmin_perm (x y : R) (l l' : list R) :
  Permutation (x :: l) (y :: l') ->
  fold_right Rmin x l = fold_right Rmin y l'.
Proof.
  intros H. apply Rle_antisym.
  - apply fold_Rmin_le. eapply Permutation_in;
      [apply Permutation_sym; exact H | apply fold_Rmin_in].
  - apply fold_Rmin_le. eapply Permutation_in;
      [exact H | apply fold_Rmin_in].
Qed.

Lemma fold_Rmax_perm (x y : R) (l l' : list R) :
  Permutation (x :: l) (y :: l') ->
  fold_right Rmax x l = fold_right Rmax y l'.
Proof.
  intros H. apply Rle_antisym.
  - apply fold_Rmax_ge. eapply Permutation_in;
      [exact H | apply fold_Rmax_in].
  - apply fold_Rmax_ge. eapply Permutation_in;
      [apply Permutation_sym; exact H | apply fold_Rmax_in].
Qed.

Lemma percentile_value_perm (a b : np.array1) (q : R) :
  Permutation a b -> percentile_value a q = percentile_value b q.
Proof.
  intros H. unfold percentile_value.
  now rewrite (sort_perm_eq a b H), (Permutation_length H).
Qed.

(** X11. The order statistics of the row of descriptive statistics are
    the same for any two orderings of the same non-empty vector of
    terminal prices: the minimum, the maximum, the median and the three
    percentiles do not depend on the order of the paths. *)
Theorem terminal_stats_order_independent (a b : np.array1) (w : World) :
  a <> [] -> Permutation a b ->
  exists ra rb w',
    terminal_stats a w = inr (ra, w')
    /\ terminal_stats b w = inr (rb, w')
    /\ stat_min rb = stat_min ra
    /\ stat_max rb = stat_max ra
    /\ stat_median rb = stat_median ra
    /\ percentile_25 rb = percentile_25 ra
    /\ percentile_75 rb = percentile_75 ra
    /\ percentile_95 rb = percentile_95 ra.
Proof.
  intros Hne H.
  destruct a as [| x a], b as [| y b]; try congruence.
  - apply Permutation_sym, Permutation_nil in H. discriminate.
  - eexists _, _, _.
    split; [apply run_terminal_stats |].
    split; [apply run_terminal_stats |].
    cbn [stat_min stat_max stat_median percentile_25 percentile_75
         percentile_95].
    rewrite !(percentile_value_perm _ _ _ H).
    rewrite (fold_Rmin_perm _ _ _ _ H), (fold_Rmax_perm _ _ _ _ H).
    repeat split.
Qed.

Lemma terminal_stats_order_independent_witness :
  exists ra rb w',
    terminal_stats [3; 1; 2] zero_world = inr (ra, w')
    /\ terminal_stats [1; 2; 3] zero_world = inr (rb, w')
    /\ stat_min rb = stat_min ra
    /\ stat_max rb = stat_max ra
    /\ stat_median rb = stat_median ra.
Proof.
  destruct (terminal_stats_order_independent [3; 1; 2] [1; 2; 3] zero_world)
    as (ra & rb & w' & Ha & Hb & Hmin & Hmax & Hmed & _).
  - discriminate.
  - apply Permutation_sym.
    apply (perm_trans (l' := [1; 3; 2])).
    + apply perm_skip, perm_swap.
    + apply perm_swap.
  - exists ra, rb, w'. repeat split; assumption.
Defined.

(** X12. For a single terminal price every location statistic is that price
    and the standard deviation is 0. *)
Theorem terminal_stats_single (x : R) (w : World) :
  terminal_stats [x] w
  = inr (mkStats (Fin x) (Fin x) (Fin 0) x x (Fin x) (Fin x) (Fin x), w).
Proof.
  assert (Hp : forall q, percentile_value [x] q = x).
  { intros q. unfold percentile_value, rank_value, npstat.lerp.
    simpl length. simpl npstat.sort.
    replace (INR (1 - 1) * (q / 100)) with (IZR 0) by (simpl; ring).
    rewrite ZfloorZ. simpl. ring. }
  rewrite (run_terminal_stats x [] w). cbv zeta.
  rewrite !Hp, std_single. simpl.
  replace ((x + 0) / 1) with x by field. reflexivity.
Qed.

(** ** What the eigenvalue input depends on *)

Lemma firstn_seq_le (k m : nat) :
  (k <= m)%nat -> firstn k (seq 0 m) = seq 0 k.
Proof.
  revert m. generalize 0%nat as s.
  induction k as [| k IH]; intros s m Hk; [reflexivity |].
  destruct m as [| m]; [lia |].
  simpl. f_equal. apply IH. lia.
Qed.

Lemma column_firstn (k j : nat) (b : np.array2) :
  (j < k)%nat ->
  npstat.column j (map (firstn k) b) = npstat.column j b.
Proof.
  intros Hj. unfold npstat.column. rewrite map_map.
  apply map_ext. intros row. rewrite nth_firstn.
  destruct (Nat.ltb_spec j k); [reflexivity | lia].
Qed.

Lemma hd_firstn_length (k : nat) (b : np.array2) :
  (k <= length (hd [] b))%nat ->
  length (hd [] (map (firstn k) b)) = k.
Proof.
  intros Hk. destruct b as [| row b]; simpl in *; [lia |].
  rewrite length_firstn. lia.
Qed.

(** The leading block of a product is the product of the leading rows of
    the first factor with the leading columns of the second. *)
Lemma leading_dot (k : nat) (a b : np.array2) :
  (k <= length (hd [] b))%nat ->
  npstat.leading k (npstat.dot a b)
  = npstat.dot (firstn k a) (map (firstn k) b).
Proof.
  intros Hk. unfold npstat.leading, npstat.dot.
  rewrite firstn_map, map_map, (hd_firstn_length k b Hk).
  apply map_ext. intros row.
  rewrite firstn_map, (firstn_seq_le k _ Hk).
  apply map_ext_in. intros j Hj. apply in_seq in Hj.
  now rewrite column_firstn by lia.
Qed.

(** X13. The matrix handed to the eigenvalue routine is the product of the
    first 1000 rows of [A] with the first 1000 columns of [B]: of the [size
    * size] entries of each factor only [1000 * size] are used. *)
Theorem benchmark_block_uses_leading_parts (size : Z) (w : World) :
  (1000 <= Z.to_nat size)%nat ->
  bench_block size w
  = npstat.dot (firstn 1000 (bench_A size w))
               (map (firstn 1000) (bench_B size w))
  /\ length (firstn 1000 (bench_A size w)) = 1000%nat
  /\ Forall (fun row => length row = 1000%nat)
            (map (firstn 1000) (bench_B size w)).
Proof.
  intros Hsize.
  pose proof (bench_B_shape size Hsize w) as [HB HBhd].
  pose proof (bench_A_shape size w) as [HA _].
  split; [| split].
  - unfold bench_block. apply leading_dot. rewrite HBhd. exact Hsize.
  - rewrite length_firstn, HA. lia.
  - apply Forall_map, Forall_forall. intros row Hin.
    rewrite length_firstn.
    unfold bench_B, np.table in Hin. apply in_map_iff in Hin.
    destruct Hin as (i & <- & _).
    rewrite length_map, length_seq. lia.
Qed.

Lemma benchmark_block_uses_leading_parts_witness :
  bench_block 5000 zero_world
  = npstat.dot (firstn 1000 (bench_A 5000 zero_world))
               (map (firstn 1000) (bench_B 5000 zero_world)).
Proof.
  apply (benchmark_block_uses_leading_parts 5000 zero_world). lia.
Defined.
